(** * Mercury runtime: contexts, the context switch and sync terms

    A shallow embedding of [runtime/mercury_context.h].  The header is made of
    C macros over the engine's registers and global variables, so every macro
    becomes a function that passes the state it touches explicitly: the
    engine's registers ([Engine]), the context structure a pointer argument
    refers to ([MR_Context]) and the sync term ([MR_SyncTerm]).

    Conditional compilation ([#ifdef]) is a [Config] of booleans; a field that
    a configuration leaves out of a structure is kept in the record and is
    simply never touched by the macros of that configuration.  [assert] is
    modelled as enabled: a failed assertion ends the run with
    [AssertionFailed] and no successor state.  Calls of functions that this
    header only declares ([MR_schedule], [MR_destroy_context], ...) are
    recorded, in order, as a list of [Call]s.

    After the runtime come three files of the debugger, embedded the same
    way: the goal-path tests of [trace/mercury_trace_declarative.c], the
    completers of [trace/mercury_trace_completion.c] and the interface to
    the term browser of [trace/mercury_trace_browse.c]. *)

From Stdlib Require Import ZArith List Bool Ascii String Lia.
Import ListNotations.
Local Open Scope string_scope.
Local Open Scope list_scope.
Local Open Scope Z_scope.

(** ** Machine words *)

(** [MR_Word], and every pointer, is a machine word; addresses count words, so
    that [p + 1] is the C expression [p + 1] on an [MR_Word *]. *)
Definition MR_Word := Z.

Definition NULL : MR_Word := 0.

(** The C type [int] of [MR_st_count]: 32 bits, two's complement. *)
Definition INT_MIN : Z := - 2 ^ 31.
Definition INT_MAX : Z := 2 ^ 31 - 1.

Definition int_wrap (z : Z) : Z := (z + 2 ^ 31) mod 2 ^ 32 - 2 ^ 31.

Definition int_range (z : Z) : Prop := INT_MIN <= z <= INT_MAX.

(** ** Configuration *)

Record Config := {
  MR_THREAD_SAFE : bool;
  MR_HIGHLEVEL_CODE : bool;
  MR_USE_TRAIL : bool;
  MR_CONSERVATIVE_GC : bool;
  MR_USE_MINIMAL_MODEL_STACK_COPY : bool
}.

(** ** Results of a macro that may fail an assertion *)

Inductive Outcome (A : Type) : Type :=
| Done (a : A)
| AssertionFailed (expr : string).

Arguments Done {A} a.
Arguments AssertionFailed {A} expr.

Definition bind {A B} (m : Outcome A) (k : A -> Outcome B) : Outcome B :=
  match m with
  | Done a => k a
  | AssertionFailed expr => AssertionFailed expr
  end.

Definition assert (cond : bool) (expr : string) : Outcome unit :=
  if cond then Done tt else AssertionFailed expr.

Declare Scope outcome_scope.
Delimit Scope outcome_scope with outcome.
Notation "x <- m ;; k" := (bind m (fun x => k))
  (at level 61, m at next level, right associativity) : outcome_scope.
Notation "m ;;; k" := (bind m (fun _ => k))
  (at level 61, right associativity) : outcome_scope.
Notation "x |> f" := (f x) (at level 45, left associativity, only parsing).

(** ** The context structure ([struct MR_Context_Struct]) *)

Record MR_Context := {
  MR_ctxt_id : MR_Word;
  MR_ctxt_next : MR_Word;
  MR_ctxt_resume : MR_Word;
  MR_ctxt_owner_thread : MR_Word;         (* MR_THREAD_SAFE *)
  MR_ctxt_succip : MR_Word;               (* !MR_HIGHLEVEL_CODE, down to ... *)
  MR_ctxt_detstack_zone : MR_Word;
  MR_ctxt_sp : MR_Word;
  MR_ctxt_nondetstack_zone : MR_Word;
  MR_ctxt_maxfr : MR_Word;
  MR_ctxt_curfr : MR_Word;
  MR_ctxt_genstack_zone : MR_Word;        (* MR_USE_MINIMAL_MODEL_STACK_COPY *)
  MR_ctxt_gen_next : MR_Word;
  MR_ctxt_cutstack_zone : MR_Word;
  MR_ctxt_cut_next : MR_Word;
  MR_ctxt_pnegstack_zone : MR_Word;
  MR_ctxt_pneg_next : MR_Word;
  MR_ctxt_owner_generator : MR_Word;      (* ... MR_USE_MINIMAL_MODEL_OWN_STACKS *)
  MR_ctxt_trail_zone : MR_Word;           (* MR_USE_TRAIL *)
  MR_ctxt_trail_ptr : MR_Word;
  MR_ctxt_ticket_counter : MR_Word;
  MR_ctxt_ticket_high_water : MR_Word;
  MR_ctxt_hp : MR_Word;                   (* !MR_CONSERVATIVE_GC *)
  MR_ctxt_min_hp_rec : MR_Word
}.

(** Assignment to one field. *)

Definition set_MR_ctxt_resume (v : MR_Word) (r : MR_Context) : MR_Context :=
  let '(Build_MR_Context c0 c1 _ c3 c4 c5 c6 c7 c8 c9 c10 c11 c12 c13 c14 c15 c16 c17 c18 c19 c20 c21 c22) := r in
  Build_MR_Context c0 c1 v c3 c4 c5 c6 c7 c8 c9 c10 c11 c12 c13 c14 c15 c16 c17 c18 c19 c20 c21 c22.

Definition set_MR_ctxt_owner_thread (v : MR_Word) (r : MR_Context) : MR_Context :=
  let '(Build_MR_Context c0 c1 c2 _ c4 c5 c6 c7 c8 c9 c10 c11 c12 c13 c14 c15 c16 c17 c18 c19 c20 c21 c22) := r in
  Build_MR_Context c0 c1 c2 v c4 c5 c6 c7 c8 c9 c10 c11 c12 c13 c14 c15 c16 c17 c18 c19 c20 c21 c22.

Definition set_MR_ctxt_succip (v : MR_Word) (r : MR_Context) : MR_Context :=
  let '(Build_MR_Context c0 c1 c2 c3 _ c5 c6 c7 c8 c9 c10 c11 c12 c13 c14 c15 c16 c17 c18 c19 c20 c21 c22) := r in
  Build_MR_Context c0 c1 c2 c3 v c5 c6 c7 c8 c9 c10 c11 c12 c13 c14 c15 c16 c17 c18 c19 c20 c21 c22.

Definition set_MR_ctxt_detstack_zone (v : MR_Word) (r : MR_Context) : MR_Context :=
  let '(Build_MR_Context c0 c1 c2 c3 c4 _ c6 c7 c8 c9 c10 c11 c12 c13 c14 c15 c16 c17 c18 c19 c20 c21 c22) := r in
  Build_MR_Context c0 c1 c2 c3 c4 v c6 c7 c8 c9 c10 c11 c12 c13 c14 c15 c16 c17 c18 c19 c20 c21 c22.

Definition set_MR_ctxt_sp (v : MR_Word) (r : MR_Context) : MR_Context :=
  let '(Build_MR_Context c0 c1 c2 c3 c4 c5 _ c7 c8 c9 c10 c11 c12 c13 c14 c15 c16 c17 c18 c19 c20 c21 c22) := r in
  Build_MR_Context c0 c1 c2 c3 c4 c5 v c7 c8 c9 c10 c11 c12 c13 c14 c15 c16 c17 c18 c19 c20 c21 c22.

Definition set_MR_ctxt_nondetstack_zone (v : MR_Word) (r : MR_Context) : MR_Context :=
  let '(Build_MR_Context c0 c1 c2 c3 c4 c5 c6 _ c8 c9 c10 c11 c12 c13 c14 c15 c16 c17 c18 c19 c20 c21 c22) := r in
  Build_MR_Context c0 c1 c2 c3 c4 c5 c6 v c8 c9 c10 c11 c12 c13 c14 c15 c16 c17 c18 c19 c20 c21 c22.

Definition set_MR_ctxt_maxfr (v : MR_Word) (r : MR_Context) : MR_Context :=
  let '(Build_MR_Context c0 c1 c2 c3 c4 c5 c6 c7 _ c9 c10 c11 c12 c13 c14 c15 c16 c17 c18 c19 c20 c21 c22) := r in
  Build_MR_Context c0 c1 c2 c3 c4 c5 c6 c7 v c9 c10 c11 c12 c13 c14 c15 c16 c17 c18 c19 c20 c21 c22.

Definition set_MR_ctxt_curfr (v : MR_Word) (r : MR_Context) : MR_Context :=
  let '(Build_MR_Context c0 c1 c2 c3 c4 c5 c6 c7 c8 _ c10 c11 c12 c13 c14 c15 c16 c17 c18 c19 c20 c21 c22) := r in
  Build_MR_Context c0 c1 c2 c3 c4 c5 c6 c7 c8 v c10 c11 c12 c13 c14 c15 c16 c17 c18 c19 c20 c21 c22.

Definition set_MR_ctxt_genstack_zone (v : MR_Word) (r : MR_Context) : MR_Context :=
  let '(Build_MR_Context c0 c1 c2 c3 c4 c5 c6 c7 c8 c9 _ c11 c12 c13 c14 c15 c16 c17 c18 c19 c20 c21 c22) := r in
  Build_MR_Context c0 c1 c2 c3 c4 c5 c6 c7 c8 c9 v c11 c12 c13 c14 c15 c16 c17 c18 c19 c20 c21 c22.

Definition set_MR_ctxt_gen_next (v : MR_Word) (r : MR_Context) : MR_Context :=
  let '(Build_MR_Context c0 c1 c2 c3 c4 c5 c6 c7 c8 c9 c10 _ c12 c13 c14 c15 c16 c17 c18 c19 c20 c21 c22) := r in
  Build_MR_Context c0 c1 c2 c3 c4 c5 c6 c7 c8 c9 c10 v c12 c13 c14 c15 c16 c17 c18 c19 c20 c21 c22.

Definition set_MR_ctxt_cutstack_zone (v : MR_Word) (r : MR_Context) : MR_Context :=
  let '(Build_MR_Context c0 c1 c2 c3 c4 c5 c6 c7 c8 c9 c10 c11 _ c13 c14 c15 c16 c17 c18 c19 c20 c21 c22) := r in
  Build_MR_Context c0 c1 c2 c3 c4 c5 c6 c7 c8 c9 c10 c11 v c13 c14 c15 c16 c17 c18 c19 c20 c21 c22.

Definition set_MR_ctxt_cut_next (v : MR_Word) (r : MR_Context) : MR_Context :=
  let '(Build_MR_Context c0 c1 c2 c3 c4 c5 c6 c7 c8 c9 c10 c11 c12 _ c14 c15 c16 c17 c18 c19 c20 c21 c22) := r in
  Build_MR_Context c0 c1 c2 c3 c4 c5 c6 c7 c8 c9 c10 c11 c12 v c14 c15 c16 c17 c18 c19 c20 c21 c22.

Definition set_MR_ctxt_pnegstack_zone (v : MR_Word) (r : MR_Context) : MR_Context :=
  let '(Build_MR_Context c0 c1 c2 c3 c4 c5 c6 c7 c8 c9 c10 c11 c12 c13 _ c15 c16 c17 c18 c19 c20 c21 c22) := r in
  Build_MR_Context c0 c1 c2 c3 c4 c5 c6 c7 c8 c9 c10 c11 c12 c13 v c15 c16 c17 c18 c19 c20 c21 c22.

Definition set_MR_ctxt_pneg_next (v : MR_Word) (r : MR_Context) : MR_Context :=
  let '(Build_MR_Context c0 c1 c2 c3 c4 c5 c6 c7 c8 c9 c10 c11 c12 c13 c14 _ c16 c17 c18 c19 c20 c21 c22) := r in
  Build_MR_Context c0 c1 c2 c3 c4 c5 c6 c7 c8 c9 c10 c11 c12 c13 c14 v c16 c17 c18 c19 c20 c21 c22.

Definition set_MR_ctxt_trail_zone (v : MR_Word) (r : MR_Context) : MR_Context :=
  let '(Build_MR_Context c0 c1 c2 c3 c4 c5 c6 c7 c8 c9 c10 c11 c12 c13 c14 c15 c16 _ c18 c19 c20 c21 c22) := r in
  Build_MR_Context c0 c1 c2 c3 c4 c5 c6 c7 c8 c9 c10 c11 c12 c13 c14 c15 c16 v c18 c19 c20 c21 c22.

Definition set_MR_ctxt_trail_ptr (v : MR_Word) (r : MR_Context) : MR_Context :=
  let '(Build_MR_Context c0 c1 c2 c3 c4 c5 c6 c7 c8 c9 c10 c11 c12 c13 c14 c15 c16 c17 _ c19 c20 c21 c22) := r in
  Build_MR_Context c0 c1 c2 c3 c4 c5 c6 c7 c8 c9 c10 c11 c12 c13 c14 c15 c16 c17 v c19 c20 c21 c22.

Definition set_MR_ctxt_ticket_counter (v : MR_Word) (r : MR_Context) : MR_Context :=
  let '(Build_MR_Context c0 c1 c2 c3 c4 c5 c6 c7 c8 c9 c10 c11 c12 c13 c14 c15 c16 c17 c18 _ c20 c21 c22) := r in
  Build_MR_Context c0 c1 c2 c3 c4 c5 c6 c7 c8 c9 c10 c11 c12 c13 c14 c15 c16 c17 c18 v c20 c21 c22.

Definition set_MR_ctxt_ticket_high_water (v : MR_Word) (r : MR_Context) : MR_Context :=
  let '(Build_MR_Context c0 c1 c2 c3 c4 c5 c6 c7 c8 c9 c10 c11 c12 c13 c14 c15 c16 c17 c18 c19 _ c21 c22) := r in
  Build_MR_Context c0 c1 c2 c3 c4 c5 c6 c7 c8 c9 c10 c11 c12 c13 c14 c15 c16 c17 c18 c19 v c21 c22.

Definition set_MR_ctxt_hp (v : MR_Word) (r : MR_Context) : MR_Context :=
  let '(Build_MR_Context c0 c1 c2 c3 c4 c5 c6 c7 c8 c9 c10 c11 c12 c13 c14 c15 c16 c17 c18 c19 c20 _ c22) := r in
  Build_MR_Context c0 c1 c2 c3 c4 c5 c6 c7 c8 c9 c10 c11 c12 c13 c14 c15 c16 c17 c18 c19 c20 v c22.

Definition set_MR_ctxt_min_hp_rec (v : MR_Word) (r : MR_Context) : MR_Context :=
  let '(Build_MR_Context c0 c1 c2 c3 c4 c5 c6 c7 c8 c9 c10 c11 c12 c13 c14 c15 c16 c17 c18 c19 c20 c21 _) := r in
  Build_MR_Context c0 c1 c2 c3 c4 c5 c6 c7 c8 c9 c10 c11 c12 c13 c14 c15 c16 c17 c18 c19 c20 c21 v.
(** ** The engine: the registers and globals the macros read and write

    [MR_succip_word], [MR_sp_word], ... are the same registers as [MR_succip],
    [MR_sp], ... seen as [MR_Word]s; a cast between pointer and word leaves
    the bits alone. *)

Record Engine := {
  MR_succip : MR_Word;
  MR_sp : MR_Word;
  MR_maxfr : MR_Word;
  MR_curfr : MR_Word;
  MR_gen_next : MR_Word;
  MR_cut_next : MR_Word;
  MR_pneg_next : MR_Word;
  MR_gen_stack : MR_Word;
  MR_cut_stack : MR_Word;
  MR_pneg_stack : MR_Word;
  MR_trail_zone : MR_Word;
  MR_trail_ptr : MR_Word;
  MR_ticket_counter : MR_Word;
  MR_ticket_high_water : MR_Word;
  MR_hp : MR_Word;
  MR_min_hp_rec : MR_Word;
  MR_eng_context : MR_Context;            (* MR_ENGINE(MR_eng_context) *)
  MR_eng_this_context : MR_Word           (* MR_ENGINE(MR_eng_this_context) *)
}.

Definition set_MR_succip (v : MR_Word) (r : Engine) : Engine :=
  let '(Build_Engine _ r1 r2 r3 r4 r5 r6 r7 r8 r9 r10 r11 r12 r13 r14 r15 r16 r17) := r in
  Build_Engine v r1 r2 r3 r4 r5 r6 r7 r8 r9 r10 r11 r12 r13 r14 r15 r16 r17.

Definition set_MR_sp (v : MR_Word) (r : Engine) : Engine :=
  let '(Build_Engine r0 _ r2 r3 r4 r5 r6 r7 r8 r9 r10 r11 r12 r13 r14 r15 r16 r17) := r in
  Build_Engine r0 v r2 r3 r4 r5 r6 r7 r8 r9 r10 r11 r12 r13 r14 r15 r16 r17.

Definition set_MR_maxfr (v : MR_Word) (r : Engine) : Engine :=
  let '(Build_Engine r0 r1 _ r3 r4 r5 r6 r7 r8 r9 r10 r11 r12 r13 r14 r15 r16 r17) := r in
  Build_Engine r0 r1 v r3 r4 r5 r6 r7 r8 r9 r10 r11 r12 r13 r14 r15 r16 r17.

Definition set_MR_curfr (v : MR_Word) (r : Engine) : Engine :=
  let '(Build_Engine r0 r1 r2 _ r4 r5 r6 r7 r8 r9 r10 r11 r12 r13 r14 r15 r16 r17) := r in
  Build_Engine r0 r1 r2 v r4 r5 r6 r7 r8 r9 r10 r11 r12 r13 r14 r15 r16 r17.

Definition set_MR_gen_next (v : MR_Word) (r : Engine) : Engine :=
  let '(Build_Engine r0 r1 r2 r3 _ r5 r6 r7 r8 r9 r10 r11 r12 r13 r14 r15 r16 r17) := r in
  Build_Engine r0 r1 r2 r3 v r5 r6 r7 r8 r9 r10 r11 r12 r13 r14 r15 r16 r17.

Definition set_MR_cut_next (v : MR_Word) (r : Engine) : Engine :=
  let '(Build_Engine r0 r1 r2 r3 r4 _ r6 r7 r8 r9 r10 r11 r12 r13 r14 r15 r16 r17) := r in
  Build_Engine r0 r1 r2 r3 r4 v r6 r7 r8 r9 r10 r11 r12 r13 r14 r15 r16 r17.

Definition set_MR_pneg_next (v : MR_Word) (r : Engine) : Engine :=
  let '(Build_Engine r0 r1 r2 r3 r4 r5 _ r7 r8 r9 r10 r11 r12 r13 r14 r15 r16 r17) := r in
  Build_Engine r0 r1 r2 r3 r4 r5 v r7 r8 r9 r10 r11 r12 r13 r14 r15 r16 r17.

Definition set_MR_gen_stack (v : MR_Word) (r : Engine) : Engine :=
  let '(Build_Engine r0 r1 r2 r3 r4 r5 r6 _ r8 r9 r10 r11 r12 r13 r14 r15 r16 r17) := r in
  Build_Engine r0 r1 r2 r3 r4 r5 r6 v r8 r9 r10 r11 r12 r13 r14 r15 r16 r17.

Definition set_MR_cut_stack (v : MR_Word) (r : Engine) : Engine :=
  let '(Build_Engine r0 r1 r2 r3 r4 r5 r6 r7 _ r9 r10 r11 r12 r13 r14 r15 r16 r17) := r in
  Build_Engine r0 r1 r2 r3 r4 r5 r6 r7 v r9 r10 r11 r12 r13 r14 r15 r16 r17.

Definition set_MR_pneg_stack (v : MR_Word) (r : Engine) : Engine :=
  let '(Build_Engine r0 r1 r2 r3 r4 r5 r6 r7 r8 _ r10 r11 r12 r13 r14 r15 r16 r17) := r in
  Build_Engine r0 r1 r2 r3 r4 r5 r6 r7 r8 v r10 r11 r12 r13 r14 r15 r16 r17.

Definition set_MR_trail_zone (v : MR_Word) (r : Engine) : Engine :=
  let '(Build_Engine r0 r1 r2 r3 r4 r5 r6 r7 r8 r9 _ r11 r12 r13 r14 r15 r16 r17) := r in
  Build_Engine r0 r1 r2 r3 r4 r5 r6 r7 r8 r9 v r11 r12 r13 r14 r15 r16 r17.

Definition set_MR_trail_ptr (v : MR_Word) (r : Engine) : Engine :=
  let '(Build_Engine r0 r1 r2 r3 r4 r5 r6 r7 r8 r9 r10 _ r12 r13 r14 r15 r16 r17) := r in
  Build_Engine r0 r1 r2 r3 r4 r5 r6 r7 r8 r9 r10 v r12 r13 r14 r15 r16 r17.

Definition set_MR_ticket_counter (v : MR_Word) (r : Engine) : Engine :=
  let '(Build_Engine r0 r1 r2 r3 r4 r5 r6 r7 r8 r9 r10 r11 _ r13 r14 r15 r16 r17) := r in
  Build_Engine r0 r1 r2 r3 r4 r5 r6 r7 r8 r9 r10 r11 v r13 r14 r15 r16 r17.

Definition set_MR_ticket_high_water (v : MR_Word) (r : Engine) : Engine :=
  let '(Build_Engine r0 r1 r2 r3 r4 r5 r6 r7 r8 r9 r10 r11 r12 _ r14 r15 r16 r17) := r in
  Build_Engine r0 r1 r2 r3 r4 r5 r6 r7 r8 r9 r10 r11 r12 v r14 r15 r16 r17.

Definition set_MR_hp (v : MR_Word) (r : Engine) : Engine :=
  let '(Build_Engine r0 r1 r2 r3 r4 r5 r6 r7 r8 r9 r10 r11 r12 r13 _ r15 r16 r17) := r in
  Build_Engine r0 r1 r2 r3 r4 r5 r6 r7 r8 r9 r10 r11 r12 r13 v r15 r16 r17.

Definition set_MR_min_hp_rec (v : MR_Word) (r : Engine) : Engine :=
  let '(Build_Engine r0 r1 r2 r3 r4 r5 r6 r7 r8 r9 r10 r11 r12 r13 r14 _ r16 r17) := r in
  Build_Engine r0 r1 r2 r3 r4 r5 r6 r7 r8 r9 r10 r11 r12 r13 r14 v r16 r17.

Definition set_MR_eng_context (v : MR_Context) (r : Engine) : Engine :=
  let '(Build_Engine r0 r1 r2 r3 r4 r5 r6 r7 r8 r9 r10 r11 r12 r13 r14 r15 _ r17) := r in
  Build_Engine r0 r1 r2 r3 r4 r5 r6 r7 r8 r9 r10 r11 r12 r13 r14 r15 v r17.

(** ** Conditional-compilation wrappers

    [MR_IF_USE_TRAIL(x)] and its siblings expand to [x] or to nothing. *)

Definition MR_IF {S : Type} (flag : bool) (x : S -> S) : S -> S :=
  if flag then x else fun s => s.

Definition MR_IF_THREAD_SAFE {S} (cfg : Config) := @MR_IF S (MR_THREAD_SAFE cfg).
Definition MR_IF_MR_THREAD_SAFE {S} (cfg : Config) := @MR_IF S (MR_THREAD_SAFE cfg).
Definition MR_IF_USE_TRAIL {S} (cfg : Config) := @MR_IF S (MR_USE_TRAIL cfg).
Definition MR_IF_USE_MINIMAL_MODEL_STACK_COPY {S} (cfg : Config) :=
  @MR_IF S (MR_USE_MINIMAL_MODEL_STACK_COPY cfg).
Definition MR_IF_NOT_HIGHLEVEL_CODE {S} (cfg : Config) :=
  @MR_IF S (negb (MR_HIGHLEVEL_CODE cfg)).

(** ** Heap-reclamation checkpoint *)

(** [MR_set_min_heap_reclamation_point(ctxt)]; empty under conservative GC. *)
Definition MR_set_min_heap_reclamation_point
    (cfg : Config) (e : Engine) (ctxt : MR_Context) : Engine * MR_Context :=
  if MR_CONSERVATIVE_GC cfg then (e, ctxt)
  else if negb (MR_hp e =? MR_ctxt_hp ctxt) || (MR_ctxt_hp ctxt =? NULL) then
    (e |> set_MR_min_hp_rec (MR_hp e),
     ctxt |> set_MR_ctxt_min_hp_rec (MR_hp e))
  else
    (e |> set_MR_min_hp_rec (MR_ctxt_min_hp_rec ctxt), ctxt).

(** [MR_save_hp_in_context(ctxt)]; empty under conservative GC. *)
Definition MR_save_hp_in_context
    (cfg : Config) (e : Engine) (ctxt : MR_Context) : MR_Context :=
  if MR_CONSERVATIVE_GC cfg then ctxt
  else ctxt |> set_MR_ctxt_hp (MR_hp e)
            |> set_MR_ctxt_min_hp_rec (MR_min_hp_rec e).

Section Runtime.

(** [zone->MR_zone_min] for a zone pointer: [MR_MemoryZone] is declared in
    mercury_memory.h, which the macros below only read through this field. *)
Variable MR_zone_min : MR_Word -> MR_Word.

(** ** [MR_load_context(cptr)] *)

Definition MR_load_context
    (cfg : Config) (e : Engine) (load_context_c : MR_Context)
    : Engine * MR_Context :=
  let c := load_context_c in
  let e := e |> MR_IF_NOT_HIGHLEVEL_CODE cfg (fun e =>
    e |> set_MR_succip (MR_ctxt_succip c)
      |> set_MR_sp (MR_ctxt_sp c)
      |> set_MR_maxfr (MR_ctxt_maxfr c)
      |> set_MR_curfr (MR_ctxt_curfr c)
      |> MR_IF_USE_MINIMAL_MODEL_STACK_COPY cfg (fun e =>
           e |> set_MR_gen_next (MR_ctxt_gen_next c)
             |> set_MR_cut_next (MR_ctxt_cut_next c)
             |> set_MR_pneg_next (MR_ctxt_pneg_next c))) in
  let e := e |> MR_IF_USE_TRAIL cfg (fun e =>
    e |> set_MR_trail_zone (MR_ctxt_trail_zone c)
      |> set_MR_trail_ptr (MR_ctxt_trail_ptr c)
      |> set_MR_ticket_counter (MR_ctxt_ticket_counter c)
      |> set_MR_ticket_high_water (MR_ctxt_ticket_high_water c)) in
  let e := e |> MR_IF_NOT_HIGHLEVEL_CODE cfg (fun e =>
    let ec := MR_eng_context e
      |> set_MR_ctxt_detstack_zone (MR_ctxt_detstack_zone c)
      |> set_MR_ctxt_nondetstack_zone (MR_ctxt_nondetstack_zone c) in
    e |> set_MR_eng_context ec
      |> MR_IF_USE_MINIMAL_MODEL_STACK_COPY cfg (fun e =>
           let ec := MR_eng_context e
             |> set_MR_ctxt_genstack_zone (MR_ctxt_genstack_zone c)
             |> set_MR_ctxt_cutstack_zone (MR_ctxt_cutstack_zone c)
             |> set_MR_ctxt_pnegstack_zone (MR_ctxt_pnegstack_zone c) in
           e |> set_MR_eng_context ec
             |> set_MR_gen_stack (MR_zone_min (MR_ctxt_genstack_zone ec))
             |> set_MR_cut_stack (MR_zone_min (MR_ctxt_cutstack_zone ec))
             |> set_MR_pneg_stack (MR_zone_min (MR_ctxt_pnegstack_zone ec)))) in
  MR_set_min_heap_reclamation_point cfg e c.

(** ** [MR_save_context(cptr)] *)

(** The three [assert]s of the stack-copy configuration, in source order.
    They stand after the last field assignment of the macro's second
    [MR_IF_NOT_HIGHLEVEL_CODE] block and before [MR_save_hp_in_context]. *)
Definition save_context_asserts (e : Engine) : Outcome unit :=
  (assert (MR_gen_stack e =? MR_zone_min (MR_ctxt_genstack_zone (MR_eng_context e)))
          "MR_gen_stack == MR_ENGINE(MR_eng_context).MR_ctxt_genstack_zone->MR_zone_min" ;;;
   assert (MR_cut_stack e =? MR_zone_min (MR_ctxt_cutstack_zone (MR_eng_context e)))
          "MR_cut_stack == MR_ENGINE(MR_eng_context).MR_ctxt_cutstack_zone->MR_zone_min" ;;;
   assert (MR_pneg_stack e =? MR_zone_min (MR_ctxt_pnegstack_zone (MR_eng_context e)))
          "MR_pneg_stack == MR_ENGINE(MR_eng_context).MR_ctxt_pnegstack_zone->MR_zone_min")%outcome.

Definition MR_save_context
    (cfg : Config) (e : Engine) (save_context_c : MR_Context)
    : Outcome MR_Context :=
  let c := save_context_c in
  let c := c |> MR_IF_NOT_HIGHLEVEL_CODE cfg (fun c =>
    c |> set_MR_ctxt_succip (MR_succip e)
      |> set_MR_ctxt_sp (MR_sp e)
      |> set_MR_ctxt_maxfr (MR_maxfr e)
      |> set_MR_ctxt_curfr (MR_curfr e)
      |> MR_IF_USE_MINIMAL_MODEL_STACK_COPY cfg (fun c =>
           c |> set_MR_ctxt_gen_next (MR_gen_next e)
             |> set_MR_ctxt_cut_next (MR_cut_next e)
             |> set_MR_ctxt_pneg_next (MR_pneg_next e))) in
  let c := c |> MR_IF_USE_TRAIL cfg (fun c =>
    c |> set_MR_ctxt_trail_zone (MR_trail_zone e)
      |> set_MR_ctxt_trail_ptr (MR_trail_ptr e)
      |> set_MR_ctxt_ticket_counter (MR_ticket_counter e)
      |> set_MR_ctxt_ticket_high_water (MR_ticket_high_water e)) in
  let c := c |> MR_IF_NOT_HIGHLEVEL_CODE cfg (fun c =>
    c |> set_MR_ctxt_detstack_zone (MR_ctxt_detstack_zone (MR_eng_context e))
      |> set_MR_ctxt_nondetstack_zone (MR_ctxt_nondetstack_zone (MR_eng_context e))
      |> MR_IF_USE_MINIMAL_MODEL_STACK_COPY cfg (fun c =>
           c |> set_MR_ctxt_genstack_zone (MR_ctxt_genstack_zone (MR_eng_context e))
             |> set_MR_ctxt_cutstack_zone (MR_ctxt_cutstack_zone (MR_eng_context e))
             |> set_MR_ctxt_pnegstack_zone (MR_ctxt_pnegstack_zone (MR_eng_context e)))) in
  ((if negb (MR_HIGHLEVEL_CODE cfg) && MR_USE_MINIMAL_MODEL_STACK_COPY cfg
    then save_context_asserts e else Done tt) ;;;
   Done (MR_save_hp_in_context cfg e c))%outcome.

(** The run-time condition under which no assertion of [MR_save_context]
    fails; it is [true] in every configuration without stack copying. *)
Definition save_context_ok (cfg : Config) (e : Engine) : bool :=
  if negb (MR_HIGHLEVEL_CODE cfg) && MR_USE_MINIMAL_MODEL_STACK_COPY cfg then
    (MR_gen_stack e =? MR_zone_min (MR_ctxt_genstack_zone (MR_eng_context e)))
    && (MR_cut_stack e =? MR_zone_min (MR_ctxt_cutstack_zone (MR_eng_context e)))
    && (MR_pneg_stack e =? MR_zone_min (MR_ctxt_pnegstack_zone (MR_eng_context e)))
  else true.

(** ** Control transfers and calls out of the header *)

(** Where a macro sends control: [MR_GOTO(label)] for a code address held in
    a word, or [MR_runnext()], which is [MR_GOTO(MR_ENTRY(MR_do_runnext))]. *)
Inductive Jump :=
| MR_GOTO (label : MR_Word)
| MR_runnext.

(** Functions and macros the header uses but does not define.  [MR_LOCK] and
    [MR_UNLOCK] come from mercury_thread.h and carry their diagnostic text. *)
Inductive Call :=
| Call_MR_LOCK (from : string)
| Call_MR_UNLOCK (from : string)
| Call_pthread_mutex_init
| Call_MR_create_context
| Call_MR_schedule (ctxt : MR_Word)
| Call_MR_destroy_context (ctxt : MR_Word).

(** ** Sync terms ([struct MR_Sync_Term_Struct]) *)

(** [MR_st_lock] is only ever passed to [MR_LOCK]/[MR_UNLOCK]/
    [pthread_mutex_init]; those are recorded as [Call]s. *)
Record MR_SyncTerm := {
  MR_st_count : Z;
  MR_st_parent : MR_Word
}.

Definition set_MR_st_count (v : Z) (st : MR_SyncTerm) : MR_SyncTerm :=
  {| MR_st_count := v; MR_st_parent := MR_st_parent st |}.

Definition set_MR_st_parent (v : MR_Word) (st : MR_SyncTerm) : MR_SyncTerm :=
  {| MR_st_count := MR_st_count st; MR_st_parent := v |}.

(** [MR_init_sync_term(sync_term, nbranches)] *)
Definition MR_init_sync_term (cfg : Config) (nbranches : Z)
    : MR_SyncTerm * list Call :=
  ({| MR_st_count := nbranches; MR_st_parent := NULL |},
   if MR_THREAD_SAFE cfg then [Call_pthread_mutex_init] else []).

(** [(st->MR_st_count)--] on a C [int]. *)
Definition decr_count (st : MR_SyncTerm) : MR_SyncTerm :=
  st |> set_MR_st_count (int_wrap (MR_st_count st - 1)).

(** [MR_join_and_terminate(sync_term)], run on engine [e]. *)
Definition MR_join_and_terminate (e : Engine) (st : MR_SyncTerm)
    : Outcome (MR_SyncTerm * list Call * Jump) :=
  (let tr := [Call_MR_LOCK "terminate"] in
   let st := decr_count st in
   tr <- (if MR_st_count st =? 0 then
            assert (negb (MR_st_parent st =? NULL)) "st->MR_st_parent != NULL" ;;;
            Done (tr ++ [Call_MR_UNLOCK "terminate i";
                         Call_MR_schedule (MR_st_parent st)])
          else
            assert (0 <? MR_st_count st) "st->MR_st_count > 0" ;;;
            Done (tr ++ [Call_MR_UNLOCK "terminate ii"])) ;;
   Done (st,
         tr ++ [Call_MR_destroy_context (MR_eng_this_context e)],
         MR_runnext))%outcome.

(** [MR_join_and_continue(sync_term, where_to)], run on engine [e]; [this] is
    the structure [MR_ENGINE(MR_eng_this_context)] points to. *)
Definition MR_join_and_continue
    (cfg : Config) (e : Engine) (this : MR_Context)
    (st : MR_SyncTerm) (where_to : MR_Word)
    : Outcome (MR_SyncTerm * MR_Context * list Call * Jump) :=
  (let tr := [Call_MR_LOCK "continue"] in
   let st := decr_count st in
   if MR_st_count st =? 0 then
     Done (st, this, tr ++ [Call_MR_UNLOCK "continue i"], MR_GOTO where_to)
   else
     assert (0 <? MR_st_count st) "st->MR_st_count > 0" ;;;
     this <- MR_save_context cfg e this ;;
     let this := this |> set_MR_ctxt_resume where_to in
     let st := st |> set_MR_st_parent (MR_eng_this_context e) in
     Done (st, this, tr ++ [Call_MR_UNLOCK "continue ii"], MR_runnext))%outcome.

(** ** Several branches joining one sync term *)

(** One join, with the engine that performs it (and, for a continuing branch,
    its context structure and resume address). *)
Inductive JoinCall :=
| join_and_terminate (e : Engine)
| join_and_continue (e : Engine) (this : MR_Context) (where_to : MR_Word).

(** What one join was seen to do. *)
Definition Observation : Type := list Call * Jump.

Definition do_join (cfg : Config) (st : MR_SyncTerm) (jc : JoinCall)
    : Outcome (MR_SyncTerm * Observation) :=
  match jc with
  | join_and_terminate e =>
      (r <- MR_join_and_terminate e st ;;
       let '(st', tr, j) := r in Done (st', (tr, j)))%outcome
  | join_and_continue e this where_to =>
      (r <- MR_join_and_continue cfg e this st where_to ;;
       let '(st', _, tr, j) := r in Done (st', (tr, j)))%outcome
  end.

(** The joins are serialised by the term's lock; the run stops at the first
    failed assertion, which aborts the process. *)
Fixpoint run_joins (cfg : Config) (st : MR_SyncTerm) (calls : list JoinCall)
    : list Observation * Outcome MR_SyncTerm :=
  match calls with
  | [] => ([], Done st)
  | jc :: rest =>
      match do_join cfg st jc with
      | AssertionFailed expr => ([], AssertionFailed expr)
      | Done (st', o) =>
          let '(obs, r) := run_joins cfg st' rest in (o :: obs, r)
      end
  end.

Definition is_schedule (c : Call) : bool :=
  match c with Call_MR_schedule _ => true | _ => false end.

(** How often a join resumed somebody: [MR_schedule] calls it made, plus one
    if it went on at its own resume address. *)
Definition resumptions (o : Observation) : nat :=
  (List.length (filter is_schedule (fst o))
   + match snd o with MR_GOTO _ => 1 | MR_runnext => 0 end)%nat.

Definition is_continue (jc : JoinCall) : bool :=
  match jc with join_and_continue _ _ _ => true | join_and_terminate _ => false end.

(** A continuing branch runs in a context, and its save passes the
    assertions of [MR_save_context]. *)
Definition join_ok (cfg : Config) (jc : JoinCall) : bool :=
  match jc with
  | join_and_terminate _ => true
  | join_and_continue e _ _ =>
      negb (MR_eng_this_context e =? NULL) && save_context_ok cfg e
  end.

(** ** Forking

    [MR_fork_new_context(child, parent, numslots)], defined without
    [MR_HIGHLEVEL_CODE], is not embedded.  Its text calls
    [MR_create_context()] without the two arguments of the function's
    prototype, and names the members [owner_thread] and [context_sp], which
    [struct MR_Context_Struct] does not have (it has [MR_ctxt_owner_thread]
    and [MR_ctxt_sp]): the compiler rejects every expansion of the macro, so
    there is no behaviour to describe. *)

End Runtime.

(** ** The scheduler, as far as the header documents it *)

(** [MR_WaitingMode] *)
Definition MR_PENDING_READ : Z := 1.
Definition MR_PENDING_WRITE : Z := 2.
Definition MR_PENDING_EXEC : Z := 4.

(** One element of the linked list [MR_pending_contexts]. *)
Record MR_PendingContext := {
  context : MR_Word;
  fd : Z;
  waiting_mode : Z
}.

(** [MR_runqueue_head]/[MR_runqueue_tail] as the list from head to tail, the
    pending list, and how many other engines are executing a context. *)
Record Scheduler := {
  MR_runqueue : list MR_Word;
  MR_pending_contexts : list MR_PendingContext;
  active_engines : nat
}.

(** Modelled from the spec: the body of [MR_schedule] (mercury_context.c) is
    not part of these sources; the header and section 4.3 document it as
    appending the context to the tail of the run queue. *)
Definition MR_schedule (ctxt : MR_Word) (s : Scheduler) : Scheduler :=
  {| MR_runqueue := MR_runqueue s ++ [ctxt];
     MR_pending_contexts := MR_pending_contexts s;
     active_engines := active_engines s |}.

(** What an idle engine that asks for work ends up doing. *)
Inductive Dispatch :=
| Run (ctxt : MR_Word) (s : Scheduler)
| Wait (s : Scheduler)
| Park
| Floundered (diagnostic : string).

(** Modelled from the spec: [MR_flounder] is only declared in the header;
    it reports a fatal runtime error identifying deadlock and terminates the
    process, so nothing follows it. *)
Definition MR_flounder : Dispatch :=
  Floundered "computation floundered".

Definition dequeue (s : Scheduler) : option (MR_Word * Scheduler) :=
  match MR_runqueue s with
  | [] => None
  | ctxt :: rest =>
      Some (ctxt, {| MR_runqueue := rest;
                     MR_pending_contexts := MR_pending_contexts s;
                     active_engines := active_engines s |})
  end.

(** Modelled from the spec: the readiness wait of section 4.3.  [ready] is
    what the operating system reports; every ready entry leaves the pending
    list and its context joins the tail of the run queue. *)
Definition wake (ready : MR_PendingContext -> bool) (s : Scheduler) : Scheduler :=
  {| MR_runqueue :=
       MR_runqueue s ++ map context (filter ready (MR_pending_contexts s));
     MR_pending_contexts :=
       filter (fun p => negb (ready p)) (MR_pending_contexts s);
     active_engines := active_engines s |}.

(** Modelled from the spec: [run_next()] of section 4.3 ([MR_do_runnext] is
    only declared in the header).  The head of the run queue if there is one;
    otherwise a readiness wait if anything is pending; otherwise the system
    has floundered unless another engine is active, in which case the engine
    parks. *)
Definition run_next (ready : MR_PendingContext -> bool) (s : Scheduler) : Dispatch :=
  match dequeue s with
  | Some (ctxt, s') => Run ctxt s'
  | None =>
      match MR_pending_contexts s with
      | _ :: _ =>
          let s' := wake ready s in
          match dequeue s' with
          | Some (ctxt, s'') => Run ctxt s''
          | None => Wait s'
          end
      | [] => if (active_engines s =? 0)%nat then MR_flounder else Park
      end
  end.

(** ** Auxiliary notions used to state the properties *)

(** Overwriting the heap pointer and the reclamation floor, in the engine and
    in a context structure. *)
Definition set_engine_heap (hp floor : MR_Word) (e : Engine) : Engine :=
  e |> set_MR_hp hp |> set_MR_min_hp_rec floor.

Definition set_context_heap (hp floor : MR_Word) (c : MR_Context) : MR_Context :=
  c |> set_MR_ctxt_hp hp |> set_MR_ctxt_min_hp_rec floor.

(** The same configuration with the other choice of collector. *)
Definition with_CONSERVATIVE_GC (gc : bool) (cfg : Config) : Config :=
  {| MR_THREAD_SAFE := MR_THREAD_SAFE cfg;
     MR_HIGHLEVEL_CODE := MR_HIGHLEVEL_CODE cfg;
     MR_USE_TRAIL := MR_USE_TRAIL cfg;
     MR_CONSERVATIVE_GC := gc;
     MR_USE_MINIMAL_MODEL_STACK_COPY := MR_USE_MINIMAL_MODEL_STACK_COPY cfg |}.

Definition map_outcome {A B} (f : A -> B) (o : Outcome A) : Outcome B :=
  match o with
  | Done a => Done (f a)
  | AssertionFailed expr => AssertionFailed expr
  end.

(** The parent a sync term holds after the joins [calls], having held [p]:
    each continuing branch that does not finish the term publishes itself. *)
Fixpoint published_parent (calls : list JoinCall) (p : MR_Word) : MR_Word :=
  match calls with
  | [] => p
  | join_and_terminate _ :: rest => published_parent rest p
  | join_and_continue e _ _ :: rest =>
      published_parent rest (MR_eng_this_context e)
  end.

(** The context a join runs in: [MR_ENGINE(MR_eng_this_context)]. *)
Definition caller (jc : JoinCall) : MR_Word :=
  match jc with
  | join_and_terminate e => MR_eng_this_context e
  | join_and_continue e _ _ => MR_eng_this_context e
  end.

(** The contexts a join passed to [MR_schedule]. *)
Definition scheduled (o : Observation) : list MR_Word :=
  flat_map (fun c => match c with Call_MR_schedule ctxt => [ctxt] | _ => [] end)
    (fst o).

(** The contexts a join resumed: those it scheduled, and its own when it
    went on at its resume address. *)
Definition resumed (jc : JoinCall) (o : Observation) : list MR_Word :=
  scheduled o ++ match snd o with MR_GOTO _ => [caller jc] | MR_runnext => [] end.

(** The same for a run of joins, join by join. *)
Definition resumed_per_join (calls : list JoinCall) (obs : list Observation)
    : list (list MR_Word) :=
  map (fun p => resumed (fst p) (snd p)) (combine calls obs).

(** ** Sample configurations and states *)

(** Low-level code, one thread, no trail, heap reclaimed on backtracking. *)
Definition grade_default : Config :=
  {| MR_THREAD_SAFE := false; MR_HIGHLEVEL_CODE := false;
     MR_USE_TRAIL := false; MR_CONSERVATIVE_GC := false;
     MR_USE_MINIMAL_MODEL_STACK_COPY := false |}.

Definition grade_conservative : Config := with_CONSERVATIVE_GC true grade_default.

(** Trailing and minimal-model tabling by stack copying. *)
Definition grade_stack_copy : Config :=
  {| MR_THREAD_SAFE := true; MR_HIGHLEVEL_CODE := false;
     MR_USE_TRAIL := true; MR_CONSERVATIVE_GC := false;
     MR_USE_MINIMAL_MODEL_STACK_COPY := true |}.

(** Every zone keeps eight words of header before its first usable word. *)
Definition zone_min_sample : MR_Word -> MR_Word := fun zone => zone + 8.

(** A context as [MR_create_context] hands it out before its first run. *)
Definition zeroed_context : MR_Context :=
  Build_MR_Context 0 0 0 0 0 0 0 0 0 0 0 0 0 0 0 0 0 0 0 0 0 0 0.

Definition engine_sample : Engine :=
  {| MR_succip := 4096; MR_sp := 8200; MR_maxfr := 12300; MR_curfr := 12296;
     MR_gen_next := 1; MR_cut_next := 2; MR_pneg_next := 3;
     MR_gen_stack := 20008; MR_cut_stack := 21008; MR_pneg_stack := 22008;
     MR_trail_zone := 30000; MR_trail_ptr := 30016;
     MR_ticket_counter := 3; MR_ticket_high_water := 5;
     MR_hp := 50000; MR_min_hp_rec := 49000;
     MR_eng_context :=
       zeroed_context |> set_MR_ctxt_detstack_zone 8000
                      |> set_MR_ctxt_nondetstack_zone 12000
                      |> set_MR_ctxt_genstack_zone 20000
                      |> set_MR_ctxt_cutstack_zone 21000
                      |> set_MR_ctxt_pnegstack_zone 22000;
     MR_eng_this_context := 70000 |}.


(** The sample engine running another context. *)
Definition engine_running (ctxt : MR_Word) : Engine :=
  let '(Build_Engine r0 r1 r2 r3 r4 r5 r6 r7 r8 r9 r10 r11 r12 r13 r14 r15 r16 _) :=
    engine_sample in
  Build_Engine r0 r1 r2 r3 r4 r5 r6 r7 r8 r9 r10 r11 r12 r13 r14 r15 r16 ctxt.

Definition scheduler_busy : Scheduler :=
  {| MR_runqueue := [];
     MR_pending_contexts :=
       [{| context := 70000; fd := 7; waiting_mode := MR_PENDING_READ |}];
     active_engines := 0 |}.

(** ** Further notions used to state properties *)

Definition set_MR_ctxt_next (v : MR_Word) (r : MR_Context) : MR_Context :=
  let '(Build_MR_Context c0 _ c2 c3 c4 c5 c6 c7 c8 c9 c10 c11 c12 c13 c14 c15 c16 c17 c18 c19 c20 c21 c22) := r in
  Build_MR_Context c0 v c2 c3 c4 c5 c6 c7 c8 c9 c10 c11 c12 c13 c14 c15 c16 c17 c18 c19 c20 c21 c22.

(** Overwriting the link field and the resume address of a context. *)
Definition set_context_link (next resume : MR_Word) (c : MR_Context) : MR_Context :=
  c |> set_MR_ctxt_next next |> set_MR_ctxt_resume resume.

(** All the resumptions seen in a run of joins. *)
Definition total_resumptions (obs : list Observation) : nat :=
  list_sum (map resumptions obs).

Definition is_failure {A} (o : Outcome A) : bool :=
  match o with AssertionFailed _ => true | Done _ => false end.

(** ** Goal paths of the declarative debugger (mercury_trace_declarative.c)

    A goal path is a C string of components, each ending in [;].  A [char *]
    is the [string] of the characters before the terminating NUL. *)

Definition semicolon : Ascii.ascii := ";"%char.

(** [MR_trace_single_component(path)] *)
Fixpoint MR_trace_single_component (path : string) : bool :=
  match path with
  | EmptyString => false
  | String c rest =>
      if Ascii.eqb c semicolon
      then match rest with EmptyString => true | String _ _ => false end
      else MR_trace_single_component rest
  end.

(** [MR_trace_same_construct(p1, p2)] *)
Fixpoint MR_trace_same_construct (p1 p2 : string) : bool :=
  match p1, p2 with
  | EmptyString, EmptyString => true
  | String c1 r1, String c2 r2 =>
      if Ascii.eqb c1 c2 then MR_trace_same_construct r1 r2
      else MR_trace_single_component p1 && MR_trace_single_component p2
  | _, _ => MR_trace_single_component p1 && MR_trace_single_component p2
  end.

(** [MR_string_equal(s1, s2)], that is [strcmp(s1, s2) == 0]. *)
Definition MR_string_equal (s1 s2 : string) : bool := String.eqb s1 s2.

(** [MR_trace_first_disjunct(event_info)], on [event_info->MR_event_path]. *)
Fixpoint MR_trace_first_disjunct (path : string) : bool :=
  match path with
  | EmptyString => false
  | String _ rest =>
      if MR_string_equal path "d1;" then true
      else MR_trace_first_disjunct rest
  end.

(** A string without [;]. *)
Definition no_semicolon (s : string) : Prop :=
  ~ In semicolon (list_ascii_of_string s).

(** ** Command-line completion (mercury_trace_completion.c)

    A [char *] result is an [option string], [None] being [NULL];
    [MR_copy_string] returns a string with the same characters.  Allocation
    and freeing are not modelled, except that the list functions report
    which list elements they free.  A completer is called with the word
    being completed and its length, which stay the same for the whole of a
    completion. *)

(** The C library's [strncmp]: the difference of the first characters that
    differ among the first [n], as unsigned characters; the comparison stops
    at a NUL, and the end of a string is its NUL. *)
Fixpoint strncmp (s1 s2 : string) (n : nat) {struct n} : Z :=
  match n with
  | O => 0
  | S n' =>
      match s1, s2 with
      | EmptyString, EmptyString => 0
      | EmptyString, String c2 _ => - Z.of_N (N_of_ascii c2)
      | String c1 _, EmptyString => Z.of_N (N_of_ascii c1)
      | String c1 r1, String c2 r2 =>
          if Ascii.eqb c1 c2 then
            if Ascii.eqb c1 Ascii.zero then 0 else strncmp r1 r2 n'
          else Z.of_N (N_of_ascii c1) - Z.of_N (N_of_ascii c2)
      end
  end.

(** [MR_strneq(s1, s2, n)] is [strncmp(s1, s2, n) == 0]. *)
Definition MR_strneq (s1 s2 : string) (n : nat) : bool :=
  strncmp s1 s2 n =? 0.

(** What running a piece of code gives: a value, undefined behaviour (an
    array read outside its bounds), or no answer within the given number of
    loop iterations. *)
Inductive Exec (A : Type) : Type :=
| Finished (a : A)
| Undefined
| OutOfFuel.

Arguments Finished {A} a.
Arguments Undefined {A}.
Arguments OutOfFuel {A}.

(** *** [MR_prepend_string(string, data)], [*data] being the string to prepend *)

Definition MR_prepend_string (string : String.string) (data : String.string)
    : option String.string * String.string :=
  (Some (data ++ string)%string, data).

(** *** Completing on an unsorted, NULL-terminated array of strings *)

(** [MR_string_array] holds the strings before the terminating [NULL]. *)
Record MR_String_Array_Completer_Data := {
  MR_string_array : list string;
  MR_string_array_current_offset : Z
}.

(** [MR_trace_string_array_completer(strings)]: a list of one completer. *)
Definition MR_trace_string_array_completer (strings : list string)
    : list MR_String_Array_Completer_Data :=
  [{| MR_string_array := strings; MR_string_array_current_offset := 0 |}].

(** The [while (1)] loop of [MR_trace_string_array_completer_next], over the
    array elements from the current offset on; the empty list is the
    terminating [NULL]. *)
Fixpoint string_array_scan (word : string) (word_len : nat)
    (from_offset : list string) (offset : Z) : option string * Z :=
  match from_offset with
  | [] => (None, int_wrap (offset + 1))
  | result :: rest =>
      if strncmp result word word_len =? 0
      then (Some result, int_wrap (offset + 1))
      else string_array_scan word word_len rest (int_wrap (offset + 1))
  end.

(** [MR_trace_string_array_completer_next(word, word_len, data)].  An offset
    outside the array and its terminator is a read out of bounds. *)
Definition MR_trace_string_array_completer_next (word : string) (word_len : nat)
    (completer_data : MR_String_Array_Completer_Data)
    : Exec (option string * MR_String_Array_Completer_Data) :=
  let strings := MR_string_array completer_data in
  let offset := MR_string_array_current_offset completer_data in
  if (0 <=? offset) && (offset <=? Z.of_nat (List.length strings)) then
    let '(result, offset') :=
      string_array_scan word word_len (skipn (Z.to_nat offset) strings) offset in
    Finished (result,
              {| MR_string_array := strings;
                 MR_string_array_current_offset := offset' |})
  else Undefined.

(** *** Completing on the labels of a sorted array *)

Record MR_Sorted_Array_Completer_Data := {
  MR_sorted_array_get_slot_name : Z -> string;
  MR_sorted_array_current_offset : Z;
  MR_sorted_array_size : Z
}.

(** [MR_trace_sorted_array_completer_next(word, word_length, data)] *)
Definition MR_trace_sorted_array_completer_next (word : string) (word_length : nat)
    (data : MR_Sorted_Array_Completer_Data)
    : Exec (option string * MR_Sorted_Array_Completer_Data) :=
  if MR_sorted_array_current_offset data <? MR_sorted_array_size data then
    let completion :=
      MR_sorted_array_get_slot_name data (MR_sorted_array_current_offset data) in
    if MR_strneq completion word word_length then
      Finished (Some completion,
                {| MR_sorted_array_get_slot_name := MR_sorted_array_get_slot_name data;
                   MR_sorted_array_current_offset :=
                     int_wrap (MR_sorted_array_current_offset data + 1);
                   MR_sorted_array_size := MR_sorted_array_size data |})
    else Finished (None, data)
  else Finished (None, data).

(** [MR_trace_sorted_array_completer(word, word_length, array_size,
    get_slot_name)].  [MR_find_first_match] is a macro of
    mercury_array_macros.h; it is given the array size and the comparison of
    each slot with the word, and sets [slot] and [found]. *)
Definition MR_trace_sorted_array_completer
    (MR_find_first_match : Z -> (Z -> Z) -> Z * bool)
    (word : string) (word_length : nat) (array_size : Z)
    (get_slot_name : Z -> string)
    : list MR_Sorted_Array_Completer_Data :=
  let '(slot, found) :=
    if (word_length =? 0)%nat then (0, negb (array_size =? 0))
    else MR_find_first_match array_size
           (fun slot => strncmp (get_slot_name slot) word word_length) in
  if found then
    [{| MR_sorted_array_get_slot_name := get_slot_name;
        MR_sorted_array_current_offset := slot;
        MR_sorted_array_size := array_size |}]
  else [].

(** *** Lists of completers

    An element of a [MR_Completer_List] is a completer function with its
    data; [call] runs the function of an element on the word and returns the
    result with the element's data as the function left it. *)

Section CompleterLists.

Variable Elem : Type.
Variable call : Elem -> Exec (option string * Elem).

(** The [while (1)] loop of [MR_trace_completer_list_next] on [*list]:
    the result, the list left in [*list], and the elements freed. *)
Fixpoint completer_list_loop (list freed : list Elem)
    : Exec (option string * List.list Elem * List.list Elem) :=
  match list with
  | [] => Finished (None, [], freed)
  | current_completer :: next =>
      match call current_completer with
      | Finished (Some result, current') =>
          Finished (Some result, current' :: next, freed)
      | Finished (None, current') =>
          completer_list_loop next (freed ++ [current'])
      | Undefined => Undefined
      | OutOfFuel => OutOfFuel
      end
  end.

(** [MR_trace_completer_list_next(word, word_len, list)]; [list] is a
    pointer to the list pointer, [None] when it is [NULL]. *)
Definition MR_trace_completer_list_next (list : option (List.list Elem))
    : Exec (option string * option (List.list Elem) * List.list Elem) :=
  match list with
  | None => Finished (None, None, [])
  | Some l =>
      match completer_list_loop l [] with
      | Finished (result, l', freed) => Finished (result, Some l', freed)
      | Undefined => Undefined
      | OutOfFuel => OutOfFuel
      end
  end.

(** *** Applying a mapping function to the output of a completer *)

Record MR_Map_Completer_Data (D : Type) := {
  MR_map_func : string -> D -> option string * D;
  MR_map_data : D;
  MR_map_list : List.list Elem
}.

Arguments MR_map_func {D}.
Arguments MR_map_data {D}.
Arguments MR_map_list {D}.

(** [MR_trace_map_completer(map, map_data, free_data, list)] *)
Definition MR_trace_map_completer {D} (map : string -> D -> option string * D)
    (map_data : D) (list : List.list Elem) : List.list (MR_Map_Completer_Data D) :=
  [{| MR_map_func := map; MR_map_data := map_data; MR_map_list := list |}].

(** [MR_trace_map_completer_next(word, word_len, completer_data)] *)
Definition MR_trace_map_completer_next {D} (data : MR_Map_Completer_Data D)
    : Exec (option string * MR_Map_Completer_Data D) :=
  match MR_trace_completer_list_next (Some (MR_map_list data)) with
  | Finished (None, list', _) =>
      Finished (None,
                {| MR_map_func := MR_map_func data;
                   MR_map_data := MR_map_data data;
                   MR_map_list := match list' with Some l => l | None => [] end |})
  | Finished (Some completion, list', _) =>
      let '(result, map_data') := MR_map_func data completion (MR_map_data data) in
      Finished (result,
                {| MR_map_func := MR_map_func data;
                   MR_map_data := map_data';
                   MR_map_list := match list' with Some l => l | None => [] end |})
  | Undefined => Undefined
  | OutOfFuel => OutOfFuel
  end.

(** *** Applying a filter to the output of a completer *)

Record MR_Filter_Completer_Data (D : Type) := {
  MR_filter_func : string -> D -> bool * D;
  MR_filter_data : D;
  MR_filter_list : List.list Elem
}.

Arguments MR_filter_func {D}.
Arguments MR_filter_data {D}.
Arguments MR_filter_list {D}.

(** [MR_trace_filter_completer(filter, filter_data, free_filter_data, list)] *)
Definition MR_trace_filter_completer {D} (filter : string -> D -> bool * D)
    (filter_data : D) (list : List.list Elem)
    : List.list (MR_Filter_Completer_Data D) :=
  [{| MR_filter_func := filter; MR_filter_data := filter_data;
      MR_filter_list := list |}].

(** [MR_trace_filter_completer_next(word, word_len, completer_data)]; [fuel]
    bounds the iterations of its [while (1)] loop. *)
Fixpoint MR_trace_filter_completer_next {D} (fuel : nat)
    (data : MR_Filter_Completer_Data D)
    : Exec (option string * MR_Filter_Completer_Data D) :=
  match fuel with
  | O => OutOfFuel
  | S fuel' =>
      match MR_trace_completer_list_next (Some (MR_filter_list data)) with
      | Finished (None, list', _) =>
          Finished (None,
                    {| MR_filter_func := MR_filter_func data;
                       MR_filter_data := MR_filter_data data;
                       MR_filter_list :=
                         match list' with Some l => l | None => [] end |})
      | Finished (Some completion, list', _) =>
          let '(keep, filter_data') :=
            MR_filter_func data completion (MR_filter_data data) in
          let data' :=
            {| MR_filter_func := MR_filter_func data;
               MR_filter_data := filter_data';
               MR_filter_list :=
                 match list' with Some l => l | None => [] end |} in
          if keep then Finished (Some completion, data')
          else MR_trace_filter_completer_next fuel' data'
      | Undefined => Undefined
      | OutOfFuel => OutOfFuel
      end
  end.

End CompleterLists.

(** *** What a completer offers

    The completions a completer returns, one call after the other, up to its
    first [NULL]. *)

Inductive elem_yields {Elem : Type} (call : Elem -> Exec (option string * Elem))
    : Elem -> list string -> Prop :=
| elem_yields_null (c c' : Elem) :
    call c = Finished (None, c') -> elem_yields call c []
| elem_yields_more (c c' : Elem) (s : string) (ss : list string) :
    call c = Finished (Some s, c') -> elem_yields call c' ss ->
    elem_yields call c (s :: ss).

(** The same for a list of completers, asked through
    [MR_trace_completer_list_next]. *)
Definition list_call {Elem : Type} (call : Elem -> Exec (option string * Elem))
    (l : list Elem) : Exec (option string * list Elem) :=
  match MR_trace_completer_list_next Elem call (Some l) with
  | Finished (result, l', _) =>
      Finished (result, match l' with Some l' => l' | None => [] end)
  | Undefined => Undefined
  | OutOfFuel => OutOfFuel
  end.

Definition list_yields {Elem : Type} (call : Elem -> Exec (option string * Elem))
    : list Elem -> list string -> Prop :=
  elem_yields (list_call call).

(** The strings of [ss] for which the filter function answers true, the
    filter's data being threaded through. *)
Fixpoint filter_answers {D} (filter : string -> D -> bool * D) (d : D)
    (ss : list string) : list string :=
  match ss with
  | [] => []
  | s :: rest =>
      let '(keep, d') := filter s d in
      if keep then s :: filter_answers filter d' rest
      else filter_answers filter d' rest
  end.

(** The images of [ss] under the mapping function, up to the first [NULL]
    it returns. *)
Fixpoint map_answers {D} (map : string -> D -> option string * D) (d : D)
    (ss : list string) : list string :=
  match ss with
  | [] => []
  | s :: rest =>
      match map s d with
      | (Some r, d') => r :: map_answers map d' rest
      | (None, _) => []
      end
  end.

(** The run of slot names from [offset] on that match the word. *)
Fixpoint matching_run (word : string) (word_length : nat)
    (get_slot_name : Z -> string) (offset : Z) (slots : nat) : list string :=
  match slots with
  | O => []
  | S slots' =>
      if MR_strneq (get_slot_name offset) word word_length
      then get_slot_name offset
           :: matching_run word word_length get_slot_name (offset + 1) slots'
      else []
  end.

(** A C string has no NUL among its characters. *)
Definition c_string (s : string) : Prop :=
  ~ In Ascii.zero (list_ascii_of_string s).

(** The string-array completer data whose current offset is [k]. *)
Definition string_array_at (strings : list string) (k : nat)
    : MR_String_Array_Completer_Data :=
  {| MR_string_array := strings;
     MR_string_array_current_offset := Z.of_nat k |}.

(** ** The interface to the term browser (mercury_trace_browse.c)

    The browser itself is Mercury code.  What its procedures return is part
    of the input here: the three initial values, and with every request to
    browse the browser state that [ML_BROWSE_browse] hands back.
    [MR_make_permanent(term, type_info)] copies a term out of the reach of
    backtracking. *)

(** The file's static variables, [done] being the one of
    [MR_trace_browse_ensure_init]. *)
Record Browser := {
  ensure_init_done : bool;
  MR_trace_browser_state : MR_Word;
  MR_trace_browser_state_type : MR_Word
}.

Definition browser_at_start : Browser :=
  {| ensure_init_done := false;
     MR_trace_browser_state := 0;
     MR_trace_browser_state_type := 0 |}.

Inductive BrowserCall :=
| Call_ML_get_type_info_for_type_info
| Call_ML_BROWSE_browser_state_type
| Call_ML_BROWSE_init_state
| Call_ML_BROWSE_browse (type_info value state : MR_Word)
| Call_ML_BROWSE_print (type_info value state : MR_Word)
| Call_MR_make_permanent (term type_info : MR_Word).

Section Browser.

(** What [ML_get_type_info_for_type_info], [ML_BROWSE_browser_state_type]
    and [ML_BROWSE_init_state] store through their argument. *)
Variable typeinfo_type_value : MR_Word.
Variable browser_state_type_value : MR_Word.
Variable init_state_value : MR_Word.
Variable MR_make_permanent : MR_Word -> MR_Word -> MR_Word.

(** [MR_trace_browse_ensure_init()] *)
Definition MR_trace_browse_ensure_init (b : Browser) : Browser * list BrowserCall :=
  if negb (ensure_init_done b) then
    let typeinfo_type := typeinfo_type_value in
    let state_type := browser_state_type_value in
    let state := init_state_value in
    let state_type' := MR_make_permanent state_type typeinfo_type in
    let state' := MR_make_permanent state state_type' in
    ({| ensure_init_done := true;
        MR_trace_browser_state := state';
        MR_trace_browser_state_type := state_type' |},
     [Call_ML_get_type_info_for_type_info;
      Call_ML_BROWSE_browser_state_type;
      Call_ML_BROWSE_init_state;
      Call_MR_make_permanent state_type typeinfo_type;
      Call_MR_make_permanent state state_type'])
  else (b, []).

(** [MR_trace_browse(type_info, value)]; [new_state] is the browser state
    that [ML_BROWSE_browse] returns. *)
Definition MR_trace_browse (type_info value new_state : MR_Word) (b : Browser)
    : Browser * list BrowserCall :=
  let '(b, calls) := MR_trace_browse_ensure_init b in
  let state := MR_trace_browser_state b in
  (* ML_BROWSE_browse(type_info, value, state, &MR_trace_browser_state) *)
  ({| ensure_init_done := ensure_init_done b;
      MR_trace_browser_state :=
        MR_make_permanent new_state (MR_trace_browser_state_type b);
      MR_trace_browser_state_type := MR_trace_browser_state_type b |},
   calls ++ [Call_ML_BROWSE_browse type_info value state;
             Call_MR_make_permanent new_state (MR_trace_browser_state_type b)]).

(** [MR_trace_print(type_info, value)] *)
Definition MR_trace_print (type_info value : MR_Word) (b : Browser)
    : Browser * list BrowserCall :=
  let '(b, calls) := MR_trace_browse_ensure_init b in
  (b, calls ++ [Call_ML_BROWSE_print type_info value (MR_trace_browser_state b)]).

(** A request made by the debugger. *)
Inductive BrowserRequest :=
| browse (type_info value new_state : MR_Word)
| print (type_info value : MR_Word).

Definition serve (r : BrowserRequest) (b : Browser) : Browser * list BrowserCall :=
  match r with
  | browse type_info value new_state => MR_trace_browse type_info value new_state b
  | print type_info value => MR_trace_print type_info value b
  end.

(** The requests one after the other, with all the calls they make. *)
Fixpoint serve_all (rs : list BrowserRequest) (b : Browser)
    : Browser * list BrowserCall :=
  match rs with
  | [] => (b, [])
  | r :: rest =>
      let '(b1, calls1) := serve r b in
      let '(b2, calls2) := serve_all rest b1 in
      (b2, calls1 ++ calls2)
  end.

End Browser.

Definition is_init_call (c : BrowserCall) : bool :=
  match c with
  | Call_ML_get_type_info_for_type_info
  | Call_ML_BROWSE_browser_state_type
  | Call_ML_BROWSE_init_state => true
  | _ => false
  end.

(** Sample data for command-line completion: a sorted, [NULL]-terminated
    array of command names, the same names by slot, and a linear search as
    the first-match finder. *)
Definition commands_sample : list string := ["break"; "browse"; "print"]%string.

Definition slot_names_sample : Z -> string :=
  fun slot => nth (Z.to_nat slot) commands_sample ""%string.

Fixpoint first_match_from (compare : Z -> Z) (slot : Z) (slots : nat) : Z * bool :=
  match slots with
  | O => (slot, false)
  | S slots' =>
      if compare slot =? 0 then (slot, true)
      else first_match_from compare (slot + 1) slots'
  end.

Definition find_first_match_sample (array_size : Z) (compare : Z -> Z) : Z * bool :=
  first_match_from compare 0 (Z.to_nat array_size).

(** A filter that rejects the string held in its data. *)
Definition reject_sample (s : string) (d : string) : bool * string :=
  (negb (String.eqb s d), d).

(** * Properties *)

(** ** Arithmetic on C ints *)

Lemma int_wrap_id (z : Z) : int_range z -> int_wrap z = z.
Proof.
  unfold int_range, INT_MIN, INT_MAX, int_wrap; intros H.
  rewrite Z.mod_small; lia.
Qed.

Lemma int_wrap_range (z : Z) : int_range (int_wrap z).
Proof.
  unfold int_range, INT_MIN, INT_MAX, int_wrap.
  pose proof (Z.mod_pos_bound (z + 2 ^ 31) (2 ^ 32) ltac:(lia)); lia.
Qed.

Section ContextSwitchFacts.

Variable MR_zone_min : MR_Word -> MR_Word.

(** [MR_load_context] ends with the checkpoint macro, run on an engine whose
    heap pointer and floor are still those it started with. *)
Lemma load_context_factors (cfg : Config) (e : Engine) (c : MR_Context) :
  exists e1,
    MR_load_context MR_zone_min cfg e c
      = MR_set_min_heap_reclamation_point cfg e1 c
    /\ MR_hp e1 = MR_hp e /\ MR_min_hp_rec e1 = MR_min_hp_rec e.
Proof.
  unfold MR_load_context. eexists; split; [reflexivity|].
  destruct cfg as [ts hl tr gc sc]; destruct hl, tr, sc, e; split; reflexivity.
Qed.

Lemma set_min_heap_reclamation_point_hp (cfg : Config) (e : Engine) (c : MR_Context) :
  MR_hp (fst (MR_set_min_heap_reclamation_point cfg e c)) = MR_hp e.
Proof.
  unfold MR_set_min_heap_reclamation_point.
  destruct (MR_CONSERVATIVE_GC cfg); [reflexivity|].
  destruct (negb (MR_hp e =? MR_ctxt_hp c) || (MR_ctxt_hp c =? NULL));
    destruct e; reflexivity.
Qed.

Lemma set_min_heap_reclamation_point_fresh (cfg : Config) (e : Engine) (c : MR_Context) :
  MR_CONSERVATIVE_GC cfg = false ->
  MR_hp e <> MR_ctxt_hp c \/ MR_ctxt_hp c = NULL ->
  MR_set_min_heap_reclamation_point cfg e c
    = (set_MR_min_hp_rec (MR_hp e) e, set_MR_ctxt_min_hp_rec (MR_hp e) c).
Proof.
  intros Hgc H. unfold MR_set_min_heap_reclamation_point. rewrite Hgc.
  destruct (Z.eqb_spec (MR_hp e) (MR_ctxt_hp c)) as [Heq|Hne]; [|reflexivity].
  destruct (Z.eqb_spec (MR_ctxt_hp c) NULL); [reflexivity|]. tauto.
Qed.

Lemma set_min_heap_reclamation_point_same (cfg : Config) (e : Engine) (c : MR_Context) :
  MR_CONSERVATIVE_GC cfg = false ->
  MR_hp e = MR_ctxt_hp c -> MR_ctxt_hp c <> NULL ->
  MR_set_min_heap_reclamation_point cfg e c
    = (set_MR_min_hp_rec (MR_ctxt_min_hp_rec c) e, c).
Proof.
  intros Hgc Heq Hnn. unfold MR_set_min_heap_reclamation_point. rewrite Hgc.
  destruct (Z.eqb_spec (MR_hp e) (MR_ctxt_hp c)); [|contradiction].
  destruct (Z.eqb_spec (MR_ctxt_hp c) NULL); [contradiction|reflexivity].
Qed.

Lemma get_set_MR_min_hp_rec (v : MR_Word) (e : Engine) :
  MR_min_hp_rec (set_MR_min_hp_rec v e) = v /\ MR_hp (set_MR_min_hp_rec v e) = MR_hp e.
Proof. destruct e; split; reflexivity. Qed.

Lemma get_set_MR_ctxt_min_hp_rec (v : MR_Word) (c : MR_Context) :
  MR_ctxt_min_hp_rec (set_MR_ctxt_min_hp_rec v c) = v
  /\ MR_ctxt_hp (set_MR_ctxt_min_hp_rec v c) = MR_ctxt_hp c.
Proof. destruct c; split; reflexivity. Qed.

(** [MR_save_context] completes exactly when its assertions hold, and then
    ends with [MR_save_hp_in_context]. *)
Lemma save_context_done (cfg : Config) (e : Engine) (c : MR_Context) :
  save_context_ok MR_zone_min cfg e = true ->
  exists c1,
    MR_save_context MR_zone_min cfg e c = Done (MR_save_hp_in_context cfg e c1).
Proof.
  unfold save_context_ok, MR_save_context, save_context_asserts.
  destruct (negb (MR_HIGHLEVEL_CODE cfg) && MR_USE_MINIMAL_MODEL_STACK_COPY cfg).
  - intros H. apply andb_prop in H as [H H3]. apply andb_prop in H as [H1 H2].
    rewrite H1, H2, H3. eexists; reflexivity.
  - intros _. eexists; reflexivity.
Qed.

Lemma save_context_aborts (cfg : Config) (e : Engine) (c : MR_Context) :
  save_context_ok MR_zone_min cfg e = false ->
  exists expr, MR_save_context MR_zone_min cfg e c = AssertionFailed expr.
Proof.
  unfold save_context_ok, MR_save_context, save_context_asserts.
  destruct (negb (MR_HIGHLEVEL_CODE cfg) && MR_USE_MINIMAL_MODEL_STACK_COPY cfg);
    [|discriminate].
  destruct (MR_gen_stack e =? _); [|eexists; reflexivity].
  destruct (MR_cut_stack e =? _); [|eexists; reflexivity].
  destruct (MR_pneg_stack e =? _); [discriminate|eexists; reflexivity].
Qed.

Lemma save_context_ok_without_stack_copy (cfg : Config) (e : Engine) :
  MR_USE_MINIMAL_MODEL_STACK_COPY cfg = false ->
  save_context_ok MR_zone_min cfg e = true.
Proof.
  intros H. unfold save_context_ok. rewrite H, andb_false_r. reflexivity.
Qed.

Lemma save_hp_in_context_fields (cfg : Config) (e : Engine) (c : MR_Context) :
  MR_CONSERVATIVE_GC cfg = false ->
  MR_ctxt_hp (MR_save_hp_in_context cfg e c) = MR_hp e
  /\ MR_ctxt_min_hp_rec (MR_save_hp_in_context cfg e c) = MR_min_hp_rec e.
Proof.
  intros Hgc. unfold MR_save_hp_in_context. rewrite Hgc.
  destruct c; split; reflexivity.
Qed.

End ContextSwitchFacts.

(** ** Heap-reclamation checkpoint on load and save *)

(** C1. In a configuration without conservative GC, [MR_load_context] leaves
    the engine's heap pointer alone and recomputes the reclamation floor: if
    the engine's heap pointer differs from the one recorded in the context,
    or none is recorded there ([NULL]), the engine's floor and the context's
    recorded floor both become the engine's heap pointer; otherwise the
    engine's floor becomes the floor recorded in the context, which is left
    as it is. *)
Theorem load_context_reclamation_floor
    (MR_zone_min : MR_Word -> MR_Word)
    (cfg : Config) (e : Engine) (c : MR_Context) :
  MR_CONSERVATIVE_GC cfg = false ->
  let r := MR_load_context MR_zone_min cfg e c in
  MR_hp (fst r) = MR_hp e /\
  (MR_hp e <> MR_ctxt_hp c \/ MR_ctxt_hp c = NULL ->
     MR_min_hp_rec (fst r) = MR_hp e /\ MR_ctxt_min_hp_rec (snd r) = MR_hp e) /\
  (MR_hp e = MR_ctxt_hp c /\ MR_ctxt_hp c <> NULL ->
     MR_min_hp_rec (fst r) = MR_ctxt_min_hp_rec c /\ snd r = c).
Proof.
  intros Hgc r; subst r.
  destruct (load_context_factors MR_zone_min cfg e c) as (e1 & -> & Hhp & _).
  rewrite <- Hhp. split; [apply set_min_heap_reclamation_point_hp|]. split.
  - intros H. rewrite set_min_heap_reclamation_point_fresh by assumption. cbn.
    split; [apply get_set_MR_min_hp_rec | apply get_set_MR_ctxt_min_hp_rec].
  - intros [Heq Hnn]. rewrite set_min_heap_reclamation_point_same by assumption.
    cbn. split; [apply get_set_MR_min_hp_rec | reflexivity].
Qed.

(** C7. In a configuration without conservative GC, [MR_save_context] (which
    completes whenever its stack-copy assertions hold, in particular in every
    configuration without stack copying) records the engine's heap pointer
    and the engine's reclamation floor in the context, whatever the context
    held before. *)
Theorem save_context_records_heap
    (MR_zone_min : MR_Word -> MR_Word)
    (cfg : Config) (e : Engine) (c : MR_Context) :
  MR_CONSERVATIVE_GC cfg = false ->
  save_context_ok MR_zone_min cfg e = true ->
  exists c',
    MR_save_context MR_zone_min cfg e c = Done c'
    /\ MR_ctxt_hp c' = MR_hp e
    /\ MR_ctxt_min_hp_rec c' = MR_min_hp_rec e.
Proof.
  intros Hgc Hok.
  destruct (save_context_done MR_zone_min cfg e c Hok) as [c1 ->].
  eexists; split; [reflexivity|]. now apply save_hp_in_context_fields.
Qed.

(** ** Saving and loading the same engine state *)

Section RoundTrip.

Variable MR_zone_min : MR_Word -> MR_Word.


End RoundTrip.


(** ** Conservative garbage collection *)

Section ConservativeGC.

Variable MR_zone_min : MR_Word -> MR_Word.

Lemma load_context_keeps_heap (cfg : Config) (e : Engine) (c : MR_Context) :
  MR_CONSERVATIVE_GC cfg = true ->
  let r := MR_load_context MR_zone_min cfg e c in
  MR_hp (fst r) = MR_hp e /\ MR_min_hp_rec (fst r) = MR_min_hp_rec e /\ snd r = c.
Proof.
  intros Hgc r; subst r.
  destruct (load_context_factors MR_zone_min cfg e c) as (e1 & -> & Hhp & Hfloor).
  unfold MR_set_min_heap_reclamation_point. rewrite Hgc. auto.
Qed.

Lemma save_context_keeps_heap (cfg : Config) (e : Engine) (c c' : MR_Context) :
  MR_CONSERVATIVE_GC cfg = true ->
  MR_save_context MR_zone_min cfg e c = Done c' ->
  MR_ctxt_hp c' = MR_ctxt_hp c /\ MR_ctxt_min_hp_rec c' = MR_ctxt_min_hp_rec c.
Proof.
  intros Hgc. unfold MR_save_context, MR_save_hp_in_context. rewrite Hgc.
  destruct (if negb (MR_HIGHLEVEL_CODE cfg) && MR_USE_MINIMAL_MODEL_STACK_COPY cfg
            then save_context_asserts MR_zone_min e else Done tt);
    cbn [bind]; [|discriminate].
  intros [= <-].
  destruct cfg as [ts hl tr gc sc], c; destruct hl, tr, sc; split; reflexivity.
Qed.

Lemma load_context_ignores_heap (cfg : Config) (e : Engine) (c : MR_Context)
    (hp floor chp cfloor : MR_Word) :
  MR_CONSERVATIVE_GC cfg = true ->
  MR_load_context MR_zone_min cfg
      (set_engine_heap hp floor e) (set_context_heap chp cfloor c)
  = (set_engine_heap hp floor (fst (MR_load_context MR_zone_min cfg e c)),
     set_context_heap chp cfloor (snd (MR_load_context MR_zone_min cfg e c))).
Proof.
  intros Hgc. unfold MR_load_context, MR_set_min_heap_reclamation_point.
  rewrite Hgc. cbn [fst snd].
  destruct cfg as [ts hl tr gc sc], e as [? ? ? ? ? ? ? ? ? ? ? ? ? ? ? ? ec ?].
  destruct ec, c, hl, tr, sc; reflexivity.
Qed.

Lemma save_context_ignores_heap (cfg : Config) (e : Engine) (c : MR_Context)
    (hp floor chp cfloor : MR_Word) :
  MR_CONSERVATIVE_GC cfg = true ->
  MR_save_context MR_zone_min cfg
      (set_engine_heap hp floor e) (set_context_heap chp cfloor c)
  = map_outcome (set_context_heap chp cfloor) (MR_save_context MR_zone_min cfg e c).
Proof.
  intros Hgc.
  unfold MR_save_context, MR_save_hp_in_context, save_context_asserts.
  rewrite Hgc.
  destruct cfg as [ts hl tr gc sc], e as [? ? ? ? ? ? ? ? ? ? ? ? ? ? ? ? ec ?].
  destruct ec, c, hl, tr, sc; cbn; try reflexivity;
    repeat match goal with |- context [assert ?b _] => destruct b; cbn end;
    reflexivity.
Qed.

Lemma load_context_gc_independent (cfg : Config) (e : Engine) (c : MR_Context)
    (gc : bool) :
  let r := MR_load_context MR_zone_min cfg e c in
  let r' := MR_load_context MR_zone_min (with_CONSERVATIVE_GC gc cfg) e c in
  set_engine_heap NULL NULL (fst r) = set_engine_heap NULL NULL (fst r')
  /\ set_context_heap NULL NULL (snd r) = set_context_heap NULL NULL (snd r').
Proof.
  unfold MR_load_context, MR_set_min_heap_reclamation_point.
  destruct cfg as [ts hl tr gc0 sc], e as [? ? ? ? ? ? ? ? ? ? ? ? ? ? hp ? ec ?].
  destruct ec, c as [? ? ? ? ? ? ? ? ? ? ? ? ? ? ? ? ? ? ? ? ? chp ?].
  destruct hl, tr, sc, gc0, gc; cbn;
    try (destruct (negb (hp =? chp) || (chp =? NULL)); cbn);
    split; reflexivity.
Qed.

Lemma save_context_gc_independent (cfg : Config) (e : Engine) (c : MR_Context)
    (gc : bool) :
  map_outcome (set_context_heap NULL NULL) (MR_save_context MR_zone_min cfg e c)
  = map_outcome (set_context_heap NULL NULL)
      (MR_save_context MR_zone_min (with_CONSERVATIVE_GC gc cfg) e c).
Proof.
  unfold MR_save_context, MR_save_hp_in_context, save_context_asserts.
  destruct cfg as [ts hl tr gc0 sc], e as [? ? ? ? ? ? ? ? ? ? ? ? ? ? ? ? ec ?].
  destruct ec, c, hl, tr, sc, gc0, gc; cbn; try reflexivity;
    repeat match goal with |- context [assert ?b _] => destruct b; cbn end;
    reflexivity.
Qed.

End ConservativeGC.

(** C8. Under conservative GC the two checkpoint macros do nothing.
    [MR_load_context] and [MR_save_context] do not write the heap pointer or
    the reclamation floor, in the engine or in the context (a load leaves the
    context as it was), and do not read them either: overwriting those four
    words before the operation is the same as overwriting them after it.
    Apart from those four words, what load and save produce is the same for
    either choice of collector. *)
Theorem conservative_gc_skips_heap_checkpoint
    (MR_zone_min : MR_Word -> MR_Word)
    (cfg : Config) (e : Engine) (c : MR_Context) :
  MR_CONSERVATIVE_GC cfg = true ->
  MR_set_min_heap_reclamation_point cfg e c = (e, c)
  /\ MR_save_hp_in_context cfg e c = c
  /\ (let r := MR_load_context MR_zone_min cfg e c in
      MR_hp (fst r) = MR_hp e /\ MR_min_hp_rec (fst r) = MR_min_hp_rec e
      /\ snd r = c)
  /\ (forall c',
        MR_save_context MR_zone_min cfg e c = Done c' ->
        MR_ctxt_hp c' = MR_ctxt_hp c
        /\ MR_ctxt_min_hp_rec c' = MR_ctxt_min_hp_rec c)
  /\ (forall hp floor chp cfloor,
        MR_load_context MR_zone_min cfg
            (set_engine_heap hp floor e) (set_context_heap chp cfloor c)
        = (set_engine_heap hp floor (fst (MR_load_context MR_zone_min cfg e c)),
           set_context_heap chp cfloor (snd (MR_load_context MR_zone_min cfg e c))))
  /\ (forall hp floor chp cfloor,
        MR_save_context MR_zone_min cfg
            (set_engine_heap hp floor e) (set_context_heap chp cfloor c)
        = map_outcome (set_context_heap chp cfloor)
            (MR_save_context MR_zone_min cfg e c))
  /\ (forall gc,
        let r := MR_load_context MR_zone_min cfg e c in
        let r' := MR_load_context MR_zone_min (with_CONSERVATIVE_GC gc cfg) e c in
        set_engine_heap NULL NULL (fst r) = set_engine_heap NULL NULL (fst r')
        /\ set_context_heap NULL NULL (snd r) = set_context_heap NULL NULL (snd r'))
  /\ (forall gc,
        map_outcome (set_context_heap NULL NULL)
          (MR_save_context MR_zone_min cfg e c)
        = map_outcome (set_context_heap NULL NULL)
            (MR_save_context MR_zone_min (with_CONSERVATIVE_GC gc cfg) e c)).
Proof.
  intros Hgc.
  split. { unfold MR_set_min_heap_reclamation_point. now rewrite Hgc. }
  split. { unfold MR_save_hp_in_context. now rewrite Hgc. }
  split. { now apply load_context_keeps_heap. }
  split. { intros c'. now apply save_context_keeps_heap. }
  split. { intros. now apply load_context_ignores_heap. }
  split. { intros. now apply save_context_ignores_heap. }
  split. { intros gc. apply load_context_gc_independent. }
  intros gc. apply save_context_gc_independent.
Qed.

(** ** Joining a sync term *)

Lemma decr_count_parent (st : MR_SyncTerm) :
  MR_st_parent (decr_count st) = MR_st_parent st.
Proof. reflexivity. Qed.

Lemma decr_count_count (st : MR_SyncTerm) :
  MR_st_count (decr_count st) = int_wrap (MR_st_count st - 1).
Proof. reflexivity. Qed.

(** The three ways [MR_join_and_terminate] can go, by the decremented count. *)
Lemma join_and_terminate_zero (e : Engine) (st : MR_SyncTerm) :
  int_wrap (MR_st_count st - 1) = 0 ->
  MR_join_and_terminate e st =
    if MR_st_parent st =? NULL
    then AssertionFailed "st->MR_st_parent != NULL"
    else Done (decr_count st,
               [Call_MR_LOCK "terminate"; Call_MR_UNLOCK "terminate i";
                Call_MR_schedule (MR_st_parent st);
                Call_MR_destroy_context (MR_eng_this_context e)],
               MR_runnext).
Proof.
  intros H. unfold MR_join_and_terminate.
  rewrite decr_count_count, decr_count_parent, H. cbn.
  destruct (MR_st_parent st =? NULL); reflexivity.
Qed.

Lemma join_and_terminate_positive (e : Engine) (st : MR_SyncTerm) :
  0 < int_wrap (MR_st_count st - 1) ->
  MR_join_and_terminate e st =
    Done (decr_count st,
          [Call_MR_LOCK "terminate"; Call_MR_UNLOCK "terminate ii";
           Call_MR_destroy_context (MR_eng_this_context e)],
          MR_runnext).
Proof.
  intros H. unfold MR_join_and_terminate. rewrite decr_count_count.
  destruct (Z.eqb_spec (int_wrap (MR_st_count st - 1)) 0); [lia|].
  destruct (Z.ltb_spec 0 (int_wrap (MR_st_count st - 1))); [reflexivity|lia].
Qed.

Lemma join_and_terminate_negative (e : Engine) (st : MR_SyncTerm) :
  int_wrap (MR_st_count st - 1) < 0 ->
  MR_join_and_terminate e st = AssertionFailed "st->MR_st_count > 0".
Proof.
  intros H. unfold MR_join_and_terminate. rewrite decr_count_count.
  destruct (Z.eqb_spec (int_wrap (MR_st_count st - 1)) 0); [lia|].
  destruct (Z.ltb_spec 0 (int_wrap (MR_st_count st - 1))); [lia|reflexivity].
Qed.

Section JoinFacts.

Variable MR_zone_min : MR_Word -> MR_Word.

Lemma join_and_continue_zero
    (cfg : Config) (e : Engine) (this : MR_Context) (st : MR_SyncTerm)
    (where_to : MR_Word) :
  int_wrap (MR_st_count st - 1) = 0 ->
  MR_join_and_continue MR_zone_min cfg e this st where_to =
    Done (decr_count st, this,
          [Call_MR_LOCK "continue"; Call_MR_UNLOCK "continue i"],
          MR_GOTO where_to).
Proof.
  intros H. unfold MR_join_and_continue. rewrite decr_count_count, H.
  reflexivity.
Qed.

Lemma join_and_continue_positive
    (cfg : Config) (e : Engine) (this : MR_Context) (st : MR_SyncTerm)
    (where_to : MR_Word) :
  0 < int_wrap (MR_st_count st - 1) ->
  MR_join_and_continue MR_zone_min cfg e this st where_to =
    (saved <- MR_save_context MR_zone_min cfg e this ;;
     Done (set_MR_st_parent (MR_eng_this_context e) (decr_count st),
           set_MR_ctxt_resume where_to saved,
           [Call_MR_LOCK "continue"; Call_MR_UNLOCK "continue ii"],
           MR_runnext))%outcome.
Proof.
  intros H. unfold MR_join_and_continue. rewrite decr_count_count.
  destruct (Z.eqb_spec (int_wrap (MR_st_count st - 1)) 0); [lia|].
  destruct (Z.ltb_spec 0 (int_wrap (MR_st_count st - 1))); [reflexivity|lia].
Qed.

Lemma join_and_continue_negative
    (cfg : Config) (e : Engine) (this : MR_Context) (st : MR_SyncTerm)
    (where_to : MR_Word) :
  int_wrap (MR_st_count st - 1) < 0 ->
  MR_join_and_continue MR_zone_min cfg e this st where_to =
    AssertionFailed "st->MR_st_count > 0".
Proof.
  intros H. unfold MR_join_and_continue. rewrite decr_count_count.
  destruct (Z.eqb_spec (int_wrap (MR_st_count st - 1)) 0); [lia|].
  destruct (Z.ltb_spec 0 (int_wrap (MR_st_count st - 1))); [lia|reflexivity].
Qed.

End JoinFacts.

Lemma int_wrap_minus_one : int_wrap (0 - 1) = -1.
Proof. reflexivity. Qed.

(** C4 (amended). [MR_join_and_continue] decrements the count.  If the count
    is then zero, control goes straight to [where_to]: the context structure
    and the term's parent are as they were, and nothing is scheduled.  If the
    count is then positive, the context is saved by [MR_save_context] (which
    must pass its own assertions), its resume address becomes [where_to], it
    becomes the term's parent, and control goes to [MR_runnext].  If the
    count is then negative, the assertion [st->MR_st_count > 0] fails. *)
Theorem join_and_continue_cases
    (MR_zone_min : MR_Word -> MR_Word)
    (cfg : Config) (e : Engine) (this : MR_Context) (st : MR_SyncTerm)
    (where_to : MR_Word) :
  int_range (MR_st_count st - 1) ->
  let count := MR_st_count st - 1 in
  let st' := set_MR_st_count count st in
  (count = 0 ->
     MR_join_and_continue MR_zone_min cfg e this st where_to =
       Done (st', this,
             [Call_MR_LOCK "continue"; Call_MR_UNLOCK "continue i"],
             MR_GOTO where_to))
  /\ (0 < count ->
      save_context_ok MR_zone_min cfg e = true ->
      exists saved,
        MR_save_context MR_zone_min cfg e this = Done saved
        /\ MR_join_and_continue MR_zone_min cfg e this st where_to =
             Done (set_MR_st_parent (MR_eng_this_context e) st',
                   set_MR_ctxt_resume where_to saved,
                   [Call_MR_LOCK "continue"; Call_MR_UNLOCK "continue ii"],
                   MR_runnext))
  /\ (count < 0 ->
      MR_join_and_continue MR_zone_min cfg e this st where_to =
        AssertionFailed "st->MR_st_count > 0").
Proof.
  intros Hr count st'. subst count st'.
  pose proof (int_wrap_id _ Hr) as Hw.
  assert (Hst : decr_count st = set_MR_st_count (MR_st_count st - 1) st)
    by (unfold decr_count; now rewrite Hw).
  repeat split.
  - intros H0. rewrite join_and_continue_zero by lia. now rewrite Hst.
  - intros Hpos Hok. rewrite join_and_continue_positive by lia.
    destruct (save_context_done MR_zone_min cfg e this Hok) as [c1 Hs].
    eexists; split; [exact Hs|]. rewrite Hs, Hst. reflexivity.
  - intros Hneg. apply join_and_continue_negative. lia.
Qed.

(** C5 (amended). [MR_join_and_terminate] decrements the count.  If the count
    is then zero and the term has a parent, the parent is scheduled, the
    calling context is destroyed and control goes to [MR_runnext]; with no
    parent the assertion [st->MR_st_parent != NULL] fails.  If the count is
    then positive, the calling context is destroyed and control goes to
    [MR_runnext], nothing being scheduled.  If the count is then negative,
    the assertion [st->MR_st_count > 0] fails.  Whenever the join completes,
    control leaves for [MR_runnext] and the calling context is handed to
    [MR_destroy_context], not saved. *)
Theorem join_and_terminate_cases (e : Engine) (st : MR_SyncTerm) :
  int_range (MR_st_count st - 1) ->
  let count := MR_st_count st - 1 in
  let st' := set_MR_st_count count st in
  (count = 0 -> MR_st_parent st <> NULL ->
     MR_join_and_terminate e st =
       Done (st',
             [Call_MR_LOCK "terminate"; Call_MR_UNLOCK "terminate i";
              Call_MR_schedule (MR_st_parent st);
              Call_MR_destroy_context (MR_eng_this_context e)],
             MR_runnext))
  /\ (count = 0 -> MR_st_parent st = NULL ->
      MR_join_and_terminate e st = AssertionFailed "st->MR_st_parent != NULL")
  /\ (0 < count ->
      MR_join_and_terminate e st =
        Done (st',
              [Call_MR_LOCK "terminate"; Call_MR_UNLOCK "terminate ii";
               Call_MR_destroy_context (MR_eng_this_context e)],
              MR_runnext))
  /\ (count < 0 ->
      MR_join_and_terminate e st = AssertionFailed "st->MR_st_count > 0")
  /\ (forall st1 calls jump,
        MR_join_and_terminate e st = Done (st1, calls, jump) ->
        jump = MR_runnext
        /\ In (Call_MR_destroy_context (MR_eng_this_context e)) calls).
Proof.
  intros Hr count st'. subst count st'.
  pose proof (int_wrap_id _ Hr) as Hw.
  assert (Hst : decr_count st = set_MR_st_count (MR_st_count st - 1) st)
    by (unfold decr_count; now rewrite Hw).
  split; [|split; [|split; [|split]]].
  - intros H0 Hp. rewrite join_and_terminate_zero by lia.
    destruct (Z.eqb_spec (MR_st_parent st) NULL); [contradiction|].
    now rewrite Hst.
  - intros H0 Hp. rewrite join_and_terminate_zero by lia.
    destruct (Z.eqb_spec (MR_st_parent st) NULL); [reflexivity|contradiction].
  - intros Hpos. rewrite join_and_terminate_positive by lia. now rewrite Hst.
  - intros Hneg. apply join_and_terminate_negative. lia.
  - intros st1 calls jump.
    destruct (Z.lt_trichotomy (MR_st_count st - 1) 0) as [Hc|[Hc|Hc]].
    + rewrite join_and_terminate_negative by lia. discriminate.
    + rewrite join_and_terminate_zero by lia.
      destruct (MR_st_parent st =? NULL); [discriminate|].
      intros [= <- <- <-]. split; [reflexivity|]. cbn. tauto.
    + rewrite join_and_terminate_positive by lia.
      intros [= <- <- <-]. split; [reflexivity|]. cbn. tauto.
Qed.

(** C10. A join on a term whose count is already zero fails the assertion
    [st->MR_st_count > 0], whichever join it is: it returns no state, makes no
    call of [MR_schedule] and transfers control nowhere.  And whatever the
    term held before, a join that completes leaves the count one lower and
    not negative. *)
Theorem join_on_exhausted_term_aborts
    (MR_zone_min : MR_Word -> MR_Word)
    (cfg : Config) (e : Engine) (this : MR_Context) (st : MR_SyncTerm)
    (where_to : MR_Word) :
  MR_st_count st = 0 ->
  MR_join_and_terminate e st = AssertionFailed "st->MR_st_count > 0"
  /\ MR_join_and_continue MR_zone_min cfg e this st where_to
     = AssertionFailed "st->MR_st_count > 0"
  /\ (forall st0 st1 calls jump,
        int_range (MR_st_count st0 - 1) ->
        MR_join_and_terminate e st0 = Done (st1, calls, jump) ->
        0 <= MR_st_count st1 /\ MR_st_count st1 = MR_st_count st0 - 1)
  /\ (forall st0 st1 this1 calls jump,
        int_range (MR_st_count st0 - 1) ->
        MR_join_and_continue MR_zone_min cfg e this st0 where_to
          = Done (st1, this1, calls, jump) ->
        0 <= MR_st_count st1 /\ MR_st_count st1 = MR_st_count st0 - 1).
Proof.
  intros H0. split; [|split; [|split]].
  - apply join_and_terminate_negative. rewrite H0. now rewrite int_wrap_minus_one.
  - apply join_and_continue_negative. rewrite H0. now rewrite int_wrap_minus_one.
  - intros st0 st1 calls jump Hr. pose proof (int_wrap_id _ Hr) as Hw.
    destruct (Z.lt_trichotomy (int_wrap (MR_st_count st0 - 1)) 0) as [Hc|[Hc|Hc]].
    + rewrite join_and_terminate_negative by assumption. discriminate.
    + rewrite join_and_terminate_zero by assumption.
      destruct (MR_st_parent st0 =? NULL); [discriminate|].
      intros [= <- _ _]. rewrite decr_count_count. lia.
    + rewrite join_and_terminate_positive by assumption.
      intros [= <- _ _]. rewrite decr_count_count. lia.
  - intros st0 st1 this1 calls jump Hr. pose proof (int_wrap_id _ Hr) as Hw.
    destruct (Z.lt_trichotomy (int_wrap (MR_st_count st0 - 1)) 0) as [Hc|[Hc|Hc]].
    + rewrite join_and_continue_negative by assumption. discriminate.
    + rewrite join_and_continue_zero by assumption.
      intros [= <- _ _ _]. rewrite decr_count_count. lia.
    + rewrite join_and_continue_positive by assumption.
      destruct (MR_save_context MR_zone_min cfg e this); cbn; [|discriminate].
      intros [= <- _ _ _]. cbn. lia.
Qed.

(** ** N joins on a term initialised with N branches *)

Section JoinSequences.

Variable MR_zone_min : MR_Word -> MR_Word.
Variable cfg : Config.


Lemma run_joins_app (l1 l2 : list JoinCall) (st : MR_SyncTerm) :
  run_joins MR_zone_min cfg st (l1 ++ l2) =
    match run_joins MR_zone_min cfg st l1 with
    | (obs1, Done st1) =>
        let '(obs2, r) := run_joins MR_zone_min cfg st1 l2 in (obs1 ++ obs2, r)
    | (obs1, AssertionFailed expr) => (obs1, AssertionFailed expr)
    end.
Proof.
  revert st. induction l1 as [|jc l1 IH]; intros st; cbn.
  - destruct (run_joins MR_zone_min cfg st l2); reflexivity.
  - destruct (do_join MR_zone_min cfg st jc) as [[st' o]|expr]; [|reflexivity].
    rewrite IH. destruct (run_joins MR_zone_min cfg st' l1) as [obs1 [st1|expr]]; [|reflexivity].
    destruct (run_joins MR_zone_min cfg st1 l2); reflexivity.
Qed.

(** A join that leaves the count positive resumes nobody. *)
Lemma do_join_positive (st : MR_SyncTerm) (jc : JoinCall) :
  join_ok MR_zone_min cfg jc = true ->
  1 < MR_st_count st <= INT_MAX ->
  exists st' o,
    do_join MR_zone_min cfg st jc = Done (st', o)
    /\ resumptions o = 0%nat
    /\ MR_st_count st' = MR_st_count st - 1
    /\ MR_st_parent st' = published_parent [jc] (MR_st_parent st).
Proof.
  intros Hok Hc.
  assert (Hw : int_wrap (MR_st_count st - 1) = MR_st_count st - 1)
    by (apply int_wrap_id; unfold int_range, INT_MIN, INT_MAX in *; lia).
  destruct jc as [e|e this where_to]; cbn [do_join].
  - rewrite join_and_terminate_positive by lia. cbn.
    do 2 eexists; repeat split. exact Hw.
  - rewrite join_and_continue_positive by lia.
    cbn in Hok. apply andb_prop in Hok as [_ Hsave].
    destruct (save_context_done MR_zone_min cfg e this Hsave) as [c1 ->]. cbn.
    do 2 eexists; repeat split. exact Hw.
Qed.

(** While more branches are outstanding than join, nobody is resumed. *)
Lemma run_joins_countdown (calls : list JoinCall) (st : MR_SyncTerm) :
  forallb (join_ok MR_zone_min cfg) calls = true ->
  Z.of_nat (List.length calls) < MR_st_count st <= INT_MAX ->
  exists obs st',
    run_joins MR_zone_min cfg st calls = (obs, Done st')
    /\ List.length obs = List.length calls
    /\ Forall (fun o => resumptions o = 0%nat) obs
    /\ MR_st_count st' = MR_st_count st - Z.of_nat (List.length calls)
    /\ MR_st_parent st' = published_parent calls (MR_st_parent st).
Proof.
  revert st. induction calls as [|jc calls IH]; intros st Hok Hc.
  - exists [], st. cbn. repeat split; [constructor | lia].
  - cbn [forallb] in Hok. apply andb_prop in Hok as [Hjc Hok].
    cbn [List.length] in Hc. rewrite Nat2Z.inj_succ in Hc.
    destruct (do_join_positive st jc Hjc ltac:(lia)) as (st1 & o & Hdo & Hres & Hcnt & Hpar).
    destruct (IH st1 Hok ltac:(lia)) as (obs & st' & Hrun & Hlen & Hall & Hcnt' & Hpar').
    exists (o :: obs), st'. cbn [run_joins]. rewrite Hdo, Hrun.
    repeat split.
    + cbn. now rewrite Hlen.
    + now constructor.
    + cbn [List.length]. rewrite Nat2Z.inj_succ. lia.
    + rewrite Hpar', Hpar. now destruct jc.
Qed.

Lemma published_parent_no_continue (calls : list JoinCall) (p : MR_Word) :
  existsb is_continue calls = false -> published_parent calls p = p.
Proof.
  induction calls as [|[e|e this w] calls IH]; cbn; auto. discriminate.
Qed.

Lemma published_parent_nonnull (calls : list JoinCall) (p : MR_Word) :
  forallb (join_ok MR_zone_min cfg) calls = true ->
  existsb is_continue calls = true ->
  published_parent calls p <> NULL.
Proof.
  revert p. induction calls as [|[e|e this w] calls IH]; intros p Hok Hex; cbn in *.
  - discriminate.
  - apply IH; assumption.
  - apply andb_prop in Hok as [He Hok]. apply andb_prop in He as [He _].
    destruct (existsb is_continue calls) eqn:Hrest.
    + apply IH; auto.
    + rewrite published_parent_no_continue by assumption.
      apply negb_true_iff in He. now apply Z.eqb_neq in He.
Qed.

(** The join that finds the count at one. *)
Lemma do_join_last (st : MR_SyncTerm) (jc : JoinCall) :
  MR_st_count st = 1 ->
  do_join MR_zone_min cfg st jc =
    match jc with
    | join_and_terminate e =>
        if MR_st_parent st =? NULL
        then AssertionFailed "st->MR_st_parent != NULL"
        else Done (decr_count st,
                   ([Call_MR_LOCK "terminate"; Call_MR_UNLOCK "terminate i";
                     Call_MR_schedule (MR_st_parent st);
                     Call_MR_destroy_context (MR_eng_this_context e)],
                    MR_runnext))
    | join_and_continue e this where_to =>
        Done (decr_count st,
              ([Call_MR_LOCK "continue"; Call_MR_UNLOCK "continue i"],
               MR_GOTO where_to))
    end.
Proof.
  intros H1.
  assert (Hw : int_wrap (MR_st_count st - 1) = 0) by (now rewrite H1).
  destruct jc as [e|e this where_to]; cbn [do_join].
  - rewrite join_and_terminate_zero by assumption.
    destruct (MR_st_parent st =? NULL); reflexivity.
  - rewrite join_and_continue_zero by assumption. reflexivity.
Qed.

End JoinSequences.

Section OneContinuingBranch.

Variable MR_zone_min : MR_Word -> MR_Word.
Variable cfg : Config.

Lemma terminating_joins_ok (calls : list JoinCall) :
  existsb is_continue calls = false ->
  forallb (join_ok MR_zone_min cfg) calls = true.
Proof.
  induction calls as [|[e|e this w] calls IH]; cbn; auto. discriminate.
Qed.

Lemma published_parent_app (l1 l2 : list JoinCall) (p : MR_Word) :
  published_parent (l1 ++ l2) p = published_parent l2 (published_parent l1 p).
Proof.
  revert p. induction l1 as [|[e|e this w] l1 IH]; intros p; cbn; auto.
Qed.

(** A join seen to resume nobody resumed no context. *)
Lemma resumed_none (jc : JoinCall) (o : Observation) :
  resumptions o = 0%nat -> resumed jc o = [].
Proof.
  destruct o as [tr j]. unfold resumptions, resumed, scheduled. cbn [fst snd].
  destruct j; [lia|]. rewrite Nat.add_0_r, app_nil_r.
  induction tr as [|c tr IH]; [reflexivity|].
  destruct c; cbn; auto; discriminate.
Qed.

Lemma resumed_per_join_none (calls : list JoinCall) (obs : list Observation) :
  List.length obs = List.length calls ->
  Forall (fun o => resumptions o = 0%nat) obs ->
  resumed_per_join calls obs = repeat [] (List.length calls).
Proof.
  revert obs. induction calls as [|jc calls IH]; intros [|o obs] Hlen Hall;
    try discriminate; [reflexivity|].
  inversion Hall as [|? ? Ho Hrest]; subst.
  unfold resumed_per_join in *. cbn [combine map fst snd List.length repeat].
  rewrite (resumed_none jc o Ho). f_equal. apply IH; [now injection Hlen | assumption].
Qed.

Lemma resumed_per_join_app (l1 l2 : list JoinCall) (o1 o2 : list Observation) :
  List.length o1 = List.length l1 ->
  resumed_per_join (l1 ++ l2) (o1 ++ o2)
  = resumed_per_join l1 o1 ++ resumed_per_join l2 o2.
Proof.
  revert o1. induction l1 as [|jc l1 IH]; intros [|o o1] Hlen; try discriminate.
  - reflexivity.
  - unfold resumed_per_join in *. cbn [app combine map]. f_equal.
    apply IH. now injection Hlen.
Qed.

(** The run of N joins on a term for N branches, split at the last join:
    the first N-1 resume nobody, the last one finds the count at one. *)
Lemma run_joins_last (N : Z) (earlier : list JoinCall) (last : JoinCall) :
  1 <= N <= INT_MAX ->
  List.length (earlier ++ [last]) = Z.to_nat N ->
  forallb (join_ok MR_zone_min cfg) earlier = true ->
  exists obs st1,
    List.length obs = List.length earlier
    /\ resumed_per_join earlier obs = repeat [] (List.length earlier)
    /\ MR_st_count st1 = 1
    /\ MR_st_parent st1 = published_parent earlier NULL
    /\ run_joins MR_zone_min cfg (fst (MR_init_sync_term cfg N)) (earlier ++ [last])
       = match do_join MR_zone_min cfg st1 last with
         | Done (st', o) => (obs ++ [o], Done st')
         | AssertionFailed expr => (obs, AssertionFailed expr)
         end.
Proof.
  intros HN Hlen Hpre.
  rewrite length_app in Hlen. cbn [List.length] in Hlen.
  set (st0 := fst (MR_init_sync_term cfg N)).
  assert (Hc0 : MR_st_count st0 = N) by reflexivity.
  assert (Hp0 : MR_st_parent st0 = NULL) by reflexivity.
  destruct (run_joins_countdown MR_zone_min cfg earlier st0 Hpre ltac:(lia))
    as (obs & st1 & Hrun & Hl & Hall & Hcnt & Hpar).
  exists obs, st1. rewrite Hp0 in Hpar.
  repeat split; try assumption.
  - now apply resumed_per_join_none.
  - lia.
  - rewrite run_joins_app, Hrun. cbn [run_joins].
    destruct (do_join MR_zone_min cfg st1 last) as [[st' o]|expr];
      [reflexivity | now rewrite app_nil_r].
Qed.

End OneContinuingBranch.

(** C2 (amended). Take a sync term initialised with N >= 1 branches and any N
    joins on it of which exactly one is a [MR_join_and_continue], made in a
    context and passing the assertions of [MR_save_context]; the continuing
    join may come at any place among the terminating ones.  Then all N joins
    complete, the count ends at zero, the first N-1 joins resume nobody, and
    the Nth resumes the context of the continuing branch and nobody else:
    when the continuing join is the Nth it goes on at its resume address in
    its own context, otherwise the Nth join, a terminating one, schedules the
    context that the continuing branch published as the term's parent. *)
Theorem sync_term_resumes_once
    (MR_zone_min : MR_Word -> MR_Word) (cfg : Config) (N : Z)
    (before after : list JoinCall)
    (e : Engine) (this : MR_Context) (where_to : MR_Word) :
  1 <= N <= INT_MAX ->
  List.length (before ++ join_and_continue e this where_to :: after) = Z.to_nat N ->
  existsb is_continue (before ++ after) = false ->
  join_ok MR_zone_min cfg (join_and_continue e this where_to) = true ->
  exists obs st',
    run_joins MR_zone_min cfg (fst (MR_init_sync_term cfg N))
      (before ++ join_and_continue e this where_to :: after) = (obs, Done st')
    /\ MR_st_count st' = 0
    /\ List.length obs = Z.to_nat N
    /\ resumed_per_join (before ++ join_and_continue e this where_to :: after) obs
       = repeat [] (Z.to_nat N - 1) ++ [[MR_eng_this_context e]]
    /\ snd (List.last obs ([], MR_runnext))
       = match after with [] => MR_GOTO where_to | _ :: _ => MR_runnext end.
Proof.
  intros HN Hlen Hno Hok.
  rewrite existsb_app in Hno. apply orb_false_iff in Hno as [Hb Ha].
  pose proof (terminating_joins_ok MR_zone_min cfg before Hb) as Hbok.
  destruct after as [|a0 after0].
  - (* the continuing join is the Nth *)
    destruct (run_joins_last MR_zone_min cfg N before
                (join_and_continue e this where_to) HN Hlen Hbok)
      as (obs & st1 & Hl & Hres & H1 & _ & Hrun).
    rewrite (do_join_last MR_zone_min cfg st1 _ H1) in Hrun.
    rewrite length_app in Hlen. cbn [List.length] in Hlen.
    eexists; eexists. split; [exact Hrun|].
    split; [rewrite decr_count_count, H1; reflexivity|].
    split; [rewrite length_app; cbn [List.length]; lia|].
    split; [|now rewrite last_last].
    rewrite resumed_per_join_app by assumption. rewrite Hres.
    replace (Z.to_nat N - 1)%nat with (List.length before) by lia.
    reflexivity.
  - (* the continuing join is an earlier one *)
    destruct (@exists_last _ (a0 :: after0)) as (mid & t & Heq); [discriminate|].
    cbv beta iota. rewrite Heq in *. clear Heq a0 after0.
    rewrite existsb_app in Ha. apply orb_false_iff in Ha as [Hm Ht].
    destruct t as [et|? ? ?]; [|discriminate].
    replace (before ++ join_and_continue e this where_to :: mid ++ [join_and_terminate et])
      with ((before ++ join_and_continue e this where_to :: mid) ++ [join_and_terminate et])
      in * by (rewrite <- app_assoc; reflexivity).
    assert (Hpre : forallb (join_ok MR_zone_min cfg)
                     (before ++ join_and_continue e this where_to :: mid) = true).
    { rewrite forallb_app. cbn [forallb]. rewrite Hbok, Hok.
      now rewrite (terminating_joins_ok MR_zone_min cfg mid Hm). }
    destruct (run_joins_last MR_zone_min cfg N _ (join_and_terminate et) HN Hlen Hpre)
      as (obs & st1 & Hl & Hres & H1 & Hpar & Hrun).
    rewrite published_parent_app in Hpar. cbn [published_parent] in Hpar.
    rewrite (published_parent_no_continue mid _ Hm) in Hpar.
    rewrite (do_join_last MR_zone_min cfg st1 _ H1), Hpar in Hrun.
    cbn [join_ok] in Hok. apply andb_prop in Hok as [Hnn _].
    apply negb_true_iff in Hnn. rewrite Hnn in Hrun.
    rewrite length_app in Hlen. cbn [List.length] in Hlen.
    eexists; eexists. split; [exact Hrun|].
    split; [rewrite decr_count_count, H1; reflexivity|].
    split; [rewrite length_app; cbn [List.length]; lia|].
    split.
    + rewrite resumed_per_join_app by assumption. rewrite Hres.
      replace (Z.to_nat N - 1)%nat
        with (List.length (before ++ join_and_continue e this where_to :: mid)) by lia.
      reflexivity.
    + now rewrite last_last.
Qed.

(** ** Floundering *)

(** C9. An engine asking for work flounders exactly when the run queue is
    empty, nothing is pending on I/O and no other engine is executing a
    context; it then ends with the fatal diagnostic of [MR_flounder] and has
    no successor state.  With a pending descriptor or an active engine it
    never flounders. *)
Theorem flounder_exactness (ready : MR_PendingContext -> bool) (s : Scheduler) :
  ((exists diagnostic, run_next ready s = Floundered diagnostic)
   <-> MR_runqueue s = [] /\ MR_pending_contexts s = []
       /\ active_engines s = 0%nat)
  /\ (run_next ready s = MR_flounder
      <-> MR_runqueue s = [] /\ MR_pending_contexts s = []
          /\ active_engines s = 0%nat)
  /\ (MR_pending_contexts s <> [] \/ active_engines s <> 0%nat ->
      forall diagnostic, run_next ready s <> Floundered diagnostic).
Proof.
  assert (Hiff : forall d, run_next ready s = Floundered d ->
                   MR_runqueue s = [] /\ MR_pending_contexts s = []
                   /\ active_engines s = 0%nat).
  { intros d. unfold run_next, MR_flounder.
    destruct (dequeue s) as [[c s']|] eqn:Hd; [discriminate|].
    unfold dequeue in Hd. destruct (MR_runqueue s) as [|c q]; [|discriminate].
    destruct (MR_pending_contexts s) as [|p ps].
    - destruct (Nat.eqb_spec (active_engines s) 0); [auto|discriminate].
    - destruct (dequeue (wake ready s)) as [[c s']|]; discriminate. }
  assert (Hfl : MR_runqueue s = [] /\ MR_pending_contexts s = []
                /\ active_engines s = 0%nat -> run_next ready s = MR_flounder).
  { intros (Hq & Hp & Ha). unfold run_next, dequeue. now rewrite Hq, Hp, Ha. }
  split; [|split].
  - split; [intros [d Hd]; eauto | intros H; eexists; apply Hfl, H].
  - split; [apply Hiff | exact Hfl].
  - intros H d Hd. apply Hiff in Hd. destruct Hd as (_ & Hp & Ha).
    destruct H; contradiction.
Qed.

(** * The properties on sample states *)

Lemma load_context_reclamation_floor_first_run :
  MR_CONSERVATIVE_GC grade_default = false
  /\ MR_min_hp_rec
       (fst (MR_load_context zone_min_sample grade_default engine_sample zeroed_context))
     = 50000.
Proof.
  split; [reflexivity|].
  pose proof (load_context_reclamation_floor zone_min_sample grade_default
                engine_sample zeroed_context eq_refl) as H.
  cbv zeta in H. destruct H as (_ & H & _).
  apply H. right. reflexivity.
Defined.

Lemma save_context_records_heap_sample :
  MR_CONSERVATIVE_GC grade_stack_copy = false
  /\ save_context_ok zone_min_sample grade_stack_copy engine_sample = true
  /\ exists c',
       MR_save_context zone_min_sample grade_stack_copy engine_sample zeroed_context
         = Done c'
       /\ MR_ctxt_hp c' = 50000 /\ MR_ctxt_min_hp_rec c' = 49000.
Proof.
  split; [reflexivity|]. split; [reflexivity|].
  exact (save_context_records_heap zone_min_sample grade_stack_copy
           engine_sample zeroed_context eq_refl eq_refl).
Defined.



Lemma conservative_gc_skips_heap_checkpoint_sample :
  MR_CONSERVATIVE_GC grade_conservative = true
  /\ MR_load_context zone_min_sample grade_conservative
         (set_engine_heap 1 2 engine_sample) (set_context_heap 3 4 zeroed_context)
     = (set_engine_heap 1 2
          (fst (MR_load_context zone_min_sample grade_conservative
                  engine_sample zeroed_context)),
        set_context_heap 3 4
          (snd (MR_load_context zone_min_sample grade_conservative
                  engine_sample zeroed_context))).
Proof.
  split; [reflexivity|].
  destruct (conservative_gc_skips_heap_checkpoint zone_min_sample
              grade_conservative engine_sample zeroed_context eq_refl)
    as (_ & _ & _ & _ & H & _).
  apply H.
Defined.

Lemma join_and_continue_cases_sample :
  int_range (3 - 1)
  /\ exists saved,
       MR_save_context zone_min_sample grade_stack_copy engine_sample zeroed_context
         = Done saved
       /\ MR_join_and_continue zone_min_sample grade_stack_copy engine_sample
            zeroed_context {| MR_st_count := 3; MR_st_parent := NULL |} 4200
          = Done ({| MR_st_count := 2; MR_st_parent := 70000 |},
                  set_MR_ctxt_resume 4200 saved,
                  [Call_MR_LOCK "continue"; Call_MR_UNLOCK "continue ii"],
                  MR_runnext).
Proof.
  assert (Hr : int_range (3 - 1)) by (unfold int_range, INT_MIN, INT_MAX; lia).
  split; [exact Hr|].
  pose proof (join_and_continue_cases zone_min_sample grade_stack_copy
                engine_sample zeroed_context
                {| MR_st_count := 3; MR_st_parent := NULL |} 4200 Hr) as H.
  cbv zeta in H. destruct H as (_ & H & _).
  apply H; [cbn; lia | reflexivity].
Defined.

(** On a term whose count is already zero the count does not reach zero, and
    nothing is saved or published: the join aborts. *)
Lemma join_and_continue_exhausted_term :
  int_wrap (MR_st_count {| MR_st_count := 0; MR_st_parent := NULL |} - 1) = -1
  /\ MR_join_and_continue zone_min_sample grade_default engine_sample
       zeroed_context {| MR_st_count := 0; MR_st_parent := NULL |} 4200
     = AssertionFailed "st->MR_st_count > 0".
Proof. split; reflexivity. Qed.

Lemma join_and_terminate_cases_sample :
  int_range (1 - 1)
  /\ MR_join_and_terminate engine_sample {| MR_st_count := 1; MR_st_parent := 71000 |}
     = Done ({| MR_st_count := 0; MR_st_parent := 71000 |},
             [Call_MR_LOCK "terminate"; Call_MR_UNLOCK "terminate i";
              Call_MR_schedule 71000; Call_MR_destroy_context 70000],
             MR_runnext).
Proof.
  assert (Hr : int_range (1 - 1)) by (unfold int_range, INT_MIN, INT_MAX; lia).
  split; [exact Hr|].
  pose proof (join_and_terminate_cases engine_sample
                {| MR_st_count := 1; MR_st_parent := 71000 |} Hr) as H.
  cbv zeta in H. destruct H as (H & _).
  apply H; [reflexivity | discriminate].
Defined.

(** On a term whose count is already zero the count does not reach zero, and
    the calling context is not destroyed: the join aborts. *)
Lemma join_and_terminate_exhausted_term :
  int_wrap (MR_st_count {| MR_st_count := 0; MR_st_parent := 71000 |} - 1) = -1
  /\ MR_join_and_terminate engine_sample {| MR_st_count := 0; MR_st_parent := 71000 |}
     = AssertionFailed "st->MR_st_count > 0".
Proof. split; reflexivity. Qed.

Lemma join_on_exhausted_term_aborts_sample :
  MR_st_count {| MR_st_count := 0; MR_st_parent := 71000 |} = 0
  /\ MR_join_and_terminate engine_sample {| MR_st_count := 0; MR_st_parent := 71000 |}
     = AssertionFailed "st->MR_st_count > 0"
  /\ MR_join_and_continue zone_min_sample grade_default engine_sample
       zeroed_context {| MR_st_count := 0; MR_st_parent := 71000 |} 4200
     = AssertionFailed "st->MR_st_count > 0".
Proof.
  split; [reflexivity|].
  destruct (join_on_exhausted_term_aborts zone_min_sample grade_default
              engine_sample zeroed_context
              {| MR_st_count := 0; MR_st_parent := 71000 |} 4200 eq_refl)
    as (H1 & H2 & _).
  split; assumption.
Defined.

(** Three branches: one terminates, one continues and parks, the last one
    terminates and schedules the parked parent. *)
Lemma sync_term_resumes_once_sample :
  exists obs st',
    run_joins zone_min_sample grade_default
      (fst (MR_init_sync_term grade_default 3))
      ([join_and_terminate (engine_running 71000)]
       ++ join_and_continue engine_sample zeroed_context 4200
          :: [join_and_terminate (engine_running 72000)])
    = (obs, Done st')
    /\ MR_st_count st' = 0
    /\ List.length obs = 3%nat
    /\ resumed_per_join
         ([join_and_terminate (engine_running 71000)]
          ++ join_and_continue engine_sample zeroed_context 4200
             :: [join_and_terminate (engine_running 72000)]) obs
       = [[]; []; [70000]]
    /\ snd (List.last obs ([], MR_runnext)) = MR_runnext.
Proof.
  assert (HN : 1 <= 3 <= INT_MAX) by (unfold INT_MAX; lia).
  exact (sync_term_resumes_once zone_min_sample grade_default 3
           [join_and_terminate (engine_running 71000)]
           [join_and_terminate (engine_running 72000)]
           engine_sample zeroed_context 4200 HN eq_refl eq_refl eq_refl).
Defined.

(** Joins that are not exactly one continuing branch among terminating
    ones.  Two branches that both terminate: the second fails its assertion
    and nobody is resumed.  Two branches that both continue: context 70000
    publishes itself and parks, 80000 goes on at its own address, and 70000,
    still the term's parent, is never scheduled.  Two continuing branches and
    a terminating one: only 80000, published last, is scheduled. *)
Lemma sync_term_not_one_continue :
  run_joins zone_min_sample grade_default
    (fst (MR_init_sync_term grade_default 2))
    [join_and_terminate engine_sample; join_and_terminate (engine_running 80000)]
  = ([([Call_MR_LOCK "terminate"; Call_MR_UNLOCK "terminate ii";
        Call_MR_destroy_context 70000],
       MR_runnext)],
     AssertionFailed "st->MR_st_parent != NULL")
  /\ run_joins zone_min_sample grade_default
       (fst (MR_init_sync_term grade_default 2))
       [join_and_continue engine_sample zeroed_context 4200;
        join_and_continue (engine_running 80000) zeroed_context 4300]
     = ([([Call_MR_LOCK "continue"; Call_MR_UNLOCK "continue ii"], MR_runnext);
         ([Call_MR_LOCK "continue"; Call_MR_UNLOCK "continue i"], MR_GOTO 4300)],
        Done {| MR_st_count := 0; MR_st_parent := 70000 |})
  /\ run_joins zone_min_sample grade_default
       (fst (MR_init_sync_term grade_default 3))
       [join_and_continue engine_sample zeroed_context 4200;
        join_and_continue (engine_running 80000) zeroed_context 4300;
        join_and_terminate (engine_running 90000)]
     = ([([Call_MR_LOCK "continue"; Call_MR_UNLOCK "continue ii"], MR_runnext);
         ([Call_MR_LOCK "continue"; Call_MR_UNLOCK "continue ii"], MR_runnext);
         ([Call_MR_LOCK "terminate"; Call_MR_UNLOCK "terminate i";
           Call_MR_schedule 80000; Call_MR_destroy_context 90000],
          MR_runnext)],
        Done {| MR_st_count := 0; MR_st_parent := 80000 |}).
Proof. repeat split; reflexivity. Qed.

Lemma run_next_waits_for_io :
  run_next (fun _ => false) scheduler_busy = Wait scheduler_busy.
Proof. reflexivity. Qed.

(** * Further properties of the context switch *)

Section ContextSwitchComposition.

Variable MR_zone_min : MR_Word -> MR_Word.

(** X1. Saving twice in a row is saving once: the second save finds every field
    already in place (and aborts exactly when the first one does). *)
Theorem save_context_idempotent (cfg : Config) (e : Engine) (c : MR_Context) :
  (c' <- MR_save_context MR_zone_min cfg e c ;;
   MR_save_context MR_zone_min cfg e c')%outcome
  = MR_save_context MR_zone_min cfg e c.
Proof.
  unfold MR_save_context, MR_save_hp_in_context.
  destruct (if negb (MR_HIGHLEVEL_CODE cfg) && MR_USE_MINIMAL_MODEL_STACK_COPY cfg
            then save_context_asserts MR_zone_min e else Done tt) as [[]|expr];
    [|reflexivity].
  cbn [bind].
  destruct cfg as [ts hl tr gc sc], e as [? ? ? ? ? ? ? ? ? ? ? ? ? ? ? ? ec ?].
  destruct ec, c, hl, tr, gc, sc; reflexivity.
Qed.

(** X2. Loading twice in a row is loading once, for the engine and for the
    context. *)
Theorem load_context_idempotent (cfg : Config) (e : Engine) (c : MR_Context) :
  let r := MR_load_context MR_zone_min cfg e c in
  MR_load_context MR_zone_min cfg (fst r) (snd r) = r.
Proof.
  cbv zeta.
  unfold MR_load_context, MR_set_min_heap_reclamation_point, NULL.
  destruct cfg as [ts hl tr gc sc], e as [? ? ? ? ? ? ? ? ? ? ? ? ? ? hp ? ec ?].
  destruct ec, c as [? ? ? ? ? ? ? ? ? ? ? ? ? ? ? ? ? ? ? ? ? chp ?].
  destruct hl, tr, gc, sc; cbn;
    try reflexivity;
    destruct (negb (hp =? chp) || (chp =? 0)) eqn:Hb; cbn; rewrite ?Hb; reflexivity.
Qed.

(** X3. A context that has just been loaded can be saved again at once: the
    stack-copy assertions of the save cannot fail, and the save changes
    nothing in the context but the recorded heap pointer, which becomes the
    engine's (the recorded floor already agrees with the engine's). *)
Theorem save_after_load (cfg : Config) (e : Engine) (c : MR_Context) :
  let r := MR_load_context MR_zone_min cfg e c in
  MR_save_context MR_zone_min cfg (fst r) (snd r)
  = Done (if MR_CONSERVATIVE_GC cfg then snd r
          else set_MR_ctxt_hp (MR_hp e) (snd r))
  /\ (MR_CONSERVATIVE_GC cfg = false ->
      MR_min_hp_rec (fst r) = MR_ctxt_min_hp_rec (snd r)).
Proof.
  cbv zeta.
  unfold MR_load_context, MR_save_context, save_context_asserts,
    MR_save_hp_in_context, MR_set_min_heap_reclamation_point, NULL.
  destruct cfg as [ts hl tr gc sc], e as [? ? ? ? ? ? ? ? ? ? ? ? ? ? hp ? ec ?].
  destruct ec, c as [? ? ? ? ? ? ? ? ? ? ? ? ? ? ? ? ? ? ? ? ? chp ?].
  destruct hl, tr, gc, sc; cbn; rewrite ?Z.eqb_refl; cbn;
    try (split; [reflexivity | intros; try discriminate; reflexivity]);
    destruct (negb (hp =? chp) || (chp =? 0)); cbn; rewrite ?Z.eqb_refl; cbn;
    (split; [reflexivity | intros; reflexivity]).
Qed.

End ContextSwitchComposition.

Section ContextSwitchFrame.

Variable MR_zone_min : MR_Word -> MR_Word.

(** X4. Neither the save nor the load looks at, or changes, the link field or the
    resume address of the context: whoever suspends a context sets
    [MR_ctxt_resume] itself. *)
Theorem context_switch_ignores_link (cfg : Config) (e : Engine) (c : MR_Context)
    (next resume : MR_Word) :
  MR_save_context MR_zone_min cfg e (set_context_link next resume c)
  = map_outcome (set_context_link next resume) (MR_save_context MR_zone_min cfg e c)
  /\ MR_load_context MR_zone_min cfg e (set_context_link next resume c)
     = (fst (MR_load_context MR_zone_min cfg e c),
        set_context_link next resume (snd (MR_load_context MR_zone_min cfg e c))).
Proof.
  split.
  - unfold MR_save_context, MR_save_hp_in_context.
    destruct (if negb (MR_HIGHLEVEL_CODE cfg) && MR_USE_MINIMAL_MODEL_STACK_COPY cfg
              then save_context_asserts MR_zone_min e else Done tt) as [[]|expr];
      [|reflexivity].
    destruct cfg as [ts hl tr gc sc], c; destruct hl, tr, gc, sc; reflexivity.
  - unfold MR_load_context, MR_set_min_heap_reclamation_point.
    destruct cfg as [ts hl tr gc sc], c as [? ? ? ? ? ? ? ? ? ? ? ? ? ? ? ? ? ? ? ? ? chp ?].
    destruct e as [? ? ? ? ? ? ? ? ? ? ? ? ? ? hp ? ec ?].
    destruct hl, tr, gc, sc; try reflexivity;
      unfold set_context_link; cbn [MR_ctxt_hp set_MR_ctxt_next set_MR_ctxt_resume];
      cbn [MR_hp MR_IF_NOT_HIGHLEVEL_CODE MR_IF_USE_TRAIL
           MR_IF_USE_MINIMAL_MODEL_STACK_COPY MR_IF negb MR_HIGHLEVEL_CODE
           MR_USE_TRAIL MR_USE_MINIMAL_MODEL_STACK_COPY MR_CONSERVATIVE_GC];
      destruct ec; cbn;
      destruct (negb (hp =? chp) || (chp =? NULL)); reflexivity.
Qed.

End ContextSwitchFrame.

(** * Further properties of sync terms *)

Section JoinBounds.

Variable MR_zone_min : MR_Word -> MR_Word.
Variable cfg : Config.

(** One join on a term whose count is a non-negative [int]: it aborts, or it
    takes the count down by one, not below zero, and resumes somebody exactly
    if it found the count at one. *)
Lemma do_join_step (st : MR_SyncTerm) (jc : JoinCall) :
  0 <= MR_st_count st <= INT_MAX ->
  match do_join MR_zone_min cfg st jc with
  | AssertionFailed _ => True
  | Done (st', o) =>
      MR_st_count st' = MR_st_count st - 1
      /\ 0 <= MR_st_count st'
      /\ resumptions o = if MR_st_count st =? 1 then 1%nat else 0%nat
  end.
Proof.
  intros Hc.
  assert (Hw : int_wrap (MR_st_count st - 1) = MR_st_count st - 1)
    by (apply int_wrap_id; unfold int_range, INT_MIN, INT_MAX in *; lia).
  destruct (Z.lt_trichotomy (MR_st_count st - 1) 0) as [Hneg|[Hzero|Hpos]];
    destruct jc as [e|e this w]; cbn [do_join].
  - rewrite join_and_terminate_negative by lia. exact I.
  - rewrite join_and_continue_negative by lia. exact I.
  - rewrite join_and_terminate_zero by lia.
    destruct (MR_st_parent st =? NULL); cbn -[int_wrap Z.sub Z.eqb]; [exact I|].
    rewrite Hw. replace (MR_st_count st) with 1 by lia. repeat split; lia.
  - rewrite join_and_continue_zero by lia. cbn -[int_wrap Z.sub Z.eqb].
    rewrite Hw. replace (MR_st_count st) with 1 by lia. repeat split; lia.
  - rewrite join_and_terminate_positive by lia. cbn -[int_wrap Z.sub Z.eqb].
    rewrite Hw. destruct (Z.eqb_spec (MR_st_count st) 1); [lia|]. repeat split; lia.
  - rewrite join_and_continue_positive by lia.
    destruct (MR_save_context MR_zone_min cfg e this);
      cbn -[int_wrap Z.sub Z.eqb]; [|exact I].
    rewrite Hw. destruct (Z.eqb_spec (MR_st_count st) 1); [lia|]. repeat split; lia.
Qed.

Lemma run_joins_bounds (calls : list JoinCall) (st : MR_SyncTerm) :
  0 <= MR_st_count st <= INT_MAX ->
  let r := run_joins MR_zone_min cfg st calls in
  Z.of_nat (List.length (fst r)) <= MR_st_count st
  /\ (total_resumptions (fst r) <= if (0 <? MR_st_count st)%Z then 1 else 0)%nat
  /\ (MR_st_count st < Z.of_nat (List.length calls) -> is_failure (snd r) = true).
Proof.
  revert st. induction calls as [|jc calls IH]; intros st Hc r; subst r.
  - cbn. repeat split; lia.
  - cbn [run_joins]. pose proof (do_join_step st jc Hc) as Hstep.
    destruct (do_join MR_zone_min cfg st jc) as [[st' o]|expr].
    + destruct Hstep as (Hcnt & Hnn & Hres).
      specialize (IH st' ltac:(lia)). cbv zeta in IH.
      destruct (run_joins MR_zone_min cfg st' calls) as [obs rr].
      cbn [fst snd] in *. destruct IH as (Hlen & Hsum & Hfail).
      split; [|split].
      * cbn [List.length]. lia.
      * unfold total_resumptions in *. cbn [map]. rewrite Hres.
        change (list_sum (?x :: ?l)) with (x + list_sum l)%nat.
        revert Hsum.
        destruct (Z.eqb_spec (MR_st_count st) 1) as [H1|H1];
          destruct (Z.ltb_spec 0 (MR_st_count st));
          destruct (Z.ltb_spec 0 (MR_st_count st')); intros Hsum; lia.
      * intros Hlong. apply Hfail. cbn [List.length] in Hlong. lia.
    + cbn. repeat split; lia.
Qed.

End JoinBounds.

(** X5. On a sync term initialised with N >= 1 branches, whatever joins are made
    and however many, at most N of them complete and at most one of them
    resumes anybody; a run of more than N joins ends in a failed
    assertion. *)
Theorem sync_term_resumes_at_most_once
    (MR_zone_min : MR_Word -> MR_Word) (cfg : Config)
    (N : Z) (calls : list JoinCall) :
  1 <= N <= INT_MAX ->
  let r := run_joins MR_zone_min cfg (fst (MR_init_sync_term cfg N)) calls in
  Z.of_nat (List.length (fst r)) <= N
  /\ (total_resumptions (fst r) <= 1)%nat
  /\ (N < Z.of_nat (List.length calls) -> is_failure (snd r) = true).
Proof.
  intros HN.
  pose proof (run_joins_bounds MR_zone_min cfg calls
                (fst (MR_init_sync_term cfg N))) as H.
  change (MR_st_count (fst (MR_init_sync_term cfg N))) with N in H.
  specialize (H ltac:(lia)). cbv zeta in *.
  destruct H as (H1 & H2 & H3). repeat split; try assumption.
  revert H2. destruct (0 <? N); lia.
Qed.

(** * Goal paths of the declarative debugger *)

Lemma no_semicolon_cons (c : Ascii.ascii) (s : string) :
  no_semicolon (String c s) <-> c <> semicolon /\ no_semicolon s.
Proof.
  unfold no_semicolon. cbn. split.
  - intros H. split; [intros ->; apply H; now left | intros Hin; apply H; now right].
  - intros [Hc Hs] [Heq|Hin]; [congruence | contradiction].
Qed.

Lemma no_semicolon_empty : no_semicolon "".
Proof. intros []. Qed.

Lemma single_component_shape (path : string) :
  MR_trace_single_component path = true
  <-> exists body, path = (body ++ ";")%string /\ no_semicolon body.
Proof.
  induction path as [|c rest IH]; cbn [MR_trace_single_component].
  - split; [discriminate|]. intros ([|? ?] & H & _); discriminate.
  - destruct (Ascii.eqb_spec c semicolon) as [->|Hc].
    + destruct rest as [|d rest].
      * split; [|reflexivity]. intros _. exists ""%string.
        split; [reflexivity | apply no_semicolon_empty].
      * split; [discriminate|]. intros (body & H & Hb).
        destruct body as [|b body]; [discriminate|].
        cbn in H. injection H as <- _.
        apply no_semicolon_cons in Hb as [Hb _]. contradiction.
    + rewrite IH. split.
      * intros (body & -> & Hb). exists (String c body).
        split; [reflexivity|]. now apply no_semicolon_cons.
      * intros (body & H & Hb). destruct body as [|b body].
        -- cbn in H. injection H as -> _. contradiction.
        -- cbn in H. injection H as <- ->. exists body.
           split; [reflexivity|]. now apply no_semicolon_cons in Hb as [_ Hb].
Qed.

(** X6. A path is a single component exactly when its only [;] is its last
    character. *)
Theorem single_component_iff (path : string) :
  MR_trace_single_component path = true
  <-> exists body, path = (body ++ ";")%string /\ no_semicolon body.
Proof.
  split.
  - intros H. now apply single_component_shape.
  - intros (body & Hpath & Hbody). apply single_component_shape.
    now exists body.
Qed.

Lemma same_construct_refl (p : string) : MR_trace_same_construct p p = true.
Proof.
  induction p as [|c p IH]; [reflexivity|].
  cbn [MR_trace_same_construct]. now rewrite Ascii.eqb_refl.
Qed.

(** Two different last components after nothing in common. *)
Lemma same_construct_last (b1 b2 : string) :
  no_semicolon b1 -> no_semicolon b2 ->
  MR_trace_same_construct (b1 ++ ";") (b2 ++ ";") = true.
Proof.
  revert b2. induction b1 as [|a b1 IH]; intros b2 H1 H2.
  - destruct b2 as [|b b2]; [reflexivity|].
    apply no_semicolon_cons in H2 as [Hb H2].
    change (MR_trace_same_construct ";" (String b (b2 ++ ";")) = true).
    cbn [MR_trace_same_construct].
    destruct (Ascii.eqb_spec ";"%char b) as [Heq|_];
      [unfold semicolon in Hb; congruence|].
    apply andb_true_intro. split; [reflexivity|].
    apply single_component_shape. exists (String b b2).
    split; [reflexivity | now apply no_semicolon_cons].
  - apply no_semicolon_cons in H1 as [Ha H1].
    destruct b2 as [|b b2].
    + change (MR_trace_same_construct (String a (b1 ++ ";")) ";" = true).
      cbn [MR_trace_same_construct].
      destruct (Ascii.eqb_spec a ";"%char) as [Heq|_];
        [unfold semicolon in Ha; congruence|].
      apply andb_true_intro. split; [|reflexivity].
      apply single_component_shape. exists (String a b1).
      split; [reflexivity | now apply no_semicolon_cons].
    + pose proof H2 as H2'. apply no_semicolon_cons in H2 as [Hb H2].
      change (MR_trace_same_construct (String a (b1 ++ ";"))
                (String b (b2 ++ ";")) = true).
      cbn [MR_trace_same_construct].
      destruct (Ascii.eqb_spec a b) as [->|Hab]; [now apply IH|].
      apply andb_true_intro. split; apply single_component_shape.
      * exists (String a b1). split; [reflexivity | now apply no_semicolon_cons].
      * exists (String b b2). split; [reflexivity | assumption].
Qed.

(** X7. Two goal paths belong to the same construct exactly when they are equal
    or become equal once the last component of each is removed; the test is
    symmetric. *)
Theorem same_construct_iff (p1 p2 : string) :
  (MR_trace_same_construct p1 p2 = true
   <-> p1 = p2
       \/ exists pre b1 b2,
            p1 = (pre ++ b1 ++ ";")%string /\ p2 = (pre ++ b2 ++ ";")%string
            /\ no_semicolon b1 /\ no_semicolon b2)
  /\ MR_trace_same_construct p1 p2 = MR_trace_same_construct p2 p1.
Proof.
  assert (Hiff : forall q1 q2,
    MR_trace_same_construct q1 q2 = true
    <-> q1 = q2
        \/ exists pre b1 b2,
             q1 = (pre ++ b1 ++ ";")%string /\ q2 = (pre ++ b2 ++ ";")%string
             /\ no_semicolon b1 /\ no_semicolon b2).
  { intros q1 q2. split.
    - revert q2. induction q1 as [|c1 r1 IH]; intros q2 H.
      + destruct q2 as [|c2 r2]; [now left | discriminate].
      + destruct q2 as [|c2 r2].
        * cbn [MR_trace_same_construct] in H.
          apply andb_prop in H as [_ H]. discriminate.
        * cbn [MR_trace_same_construct] in H.
          destruct (Ascii.eqb_spec c1 c2) as [->|Hc].
          -- destruct (IH r2 H) as [->|(pre & b1 & b2 & -> & -> & H1 & H2)];
               [now left|].
             right. exists (String c2 pre), b1, b2. repeat split; assumption.
          -- apply andb_prop in H as [H1 H2].
             apply single_component_shape in H1 as (b1 & E1 & H1).
             apply single_component_shape in H2 as (b2 & E2 & H2).
             right. exists ""%string, b1, b2. repeat split; assumption.
    - intros [->|(pre & b1 & b2 & -> & -> & H1 & H2)].
      + apply same_construct_refl.
      + induction pre as [|c pre IH]; cbn [append].
        * now apply same_construct_last.
        * cbn [MR_trace_same_construct]. now rewrite Ascii.eqb_refl. }
  split; [apply Hiff|].
  apply eq_true_iff_eq. rewrite !Hiff. clear Hiff. split.
  - intros [->|(pre & b1 & b2 & E1 & E2 & H1 & H2)]; [now left|].
    right. exists pre, b2, b1. repeat split; assumption.
  - intros [->|(pre & b1 & b2 & E1 & E2 & H1 & H2)]; [now left|].
    right. exists pre, b2, b1. repeat split; assumption.
Qed.

(** X8. An event is in the first disjunct exactly when its goal path ends in
    [d1;]. *)
Theorem first_disjunct_iff (path : string) :
  MR_trace_first_disjunct path = true
  <-> exists pre, path = (pre ++ "d1;")%string.
Proof.
  split.
  - induction path as [|c rest IH]; [discriminate|].
    cbn [MR_trace_first_disjunct]. unfold MR_string_equal.
    destruct (String.eqb_spec (String c rest) "d1;") as [->|_].
    + intros _. now exists ""%string.
    + intros H. destruct (IH H) as [pre ->]. now exists (String c pre).
  - intros [pre ->]. induction pre as [|c pre IH]; [reflexivity|].
    cbn [append MR_trace_first_disjunct].
    destruct (MR_string_equal (String c (pre ++ "d1;")) "d1;");
      [reflexivity | exact IH].
Qed.

(** * Command-line completion *)

Lemma N_of_ascii_zero (c : ascii) : N_of_ascii c = 0%N -> c = Ascii.zero.
Proof.
  intros H. rewrite <- (ascii_N_embedding c), H. reflexivity.
Qed.

(** Comparing the first [strlen(word)] characters with [word] is asking
    whether [word] is a prefix. *)
Lemma strneq_prefix (word s : string) :
  c_string word ->
  MR_strneq s word (String.length word) = String.prefix word s.
Proof.
  unfold MR_strneq, c_string. revert s.
  induction word as [|c word IH]; intros s Hc; [now destruct s|].
  cbn [list_ascii_of_string] in Hc.
  assert (Hc0 : c <> Ascii.zero) by (intros ->; apply Hc; now left).
  assert (Hw : ~ In Ascii.zero (list_ascii_of_string word))
    by (intros Hin; apply Hc; now right).
  destruct s as [|d s]; cbn [String.length strncmp String.prefix].
  - destruct (Z.eqb_spec (- Z.of_N (N_of_ascii c)) 0) as [H|H]; [|reflexivity].
    exfalso. apply Hc0, N_of_ascii_zero. lia.
  - rewrite (Ascii.eqb_sym d c).
    destruct (Ascii.eqb_spec c d) as [->|Hcd].
    + destruct (ascii_dec d d) as [_|Hne]; [|contradiction].
      destruct (Ascii.eqb_spec d Ascii.zero) as [Hz|_]; [contradiction|].
      now apply IH.
    + destruct (ascii_dec c d) as [Heq|_]; [contradiction|].
      apply Z.eqb_neq. intros H. apply Hcd.
      rewrite <- (ascii_N_embedding c), <- (ascii_N_embedding d).
      f_equal. lia.
Qed.

(** ** Lists of completers *)

Section CompleterListFacts.

Variable Elem : Type.
Variable call : Elem -> Exec (option string * Elem).

(** What has been freed so far only accumulates. *)
Lemma completer_list_loop_freed (l freed : list Elem) :
  completer_list_loop Elem call l freed =
    match completer_list_loop Elem call l [] with
    | Finished (result, l', freed') => Finished (result, l', freed ++ freed')
    | Undefined => Undefined
    | OutOfFuel => OutOfFuel
    end.
Proof.
  revert freed. induction l as [|c l IH]; intros freed; cbn [completer_list_loop].
  - now rewrite app_nil_r.
  - destruct (call c) as [[[s|] c']| |]; try reflexivity;
      [now rewrite app_nil_r|].
    rewrite (IH (freed ++ [c'])), (IH ([] ++ [c'])).
    destruct (completer_list_loop Elem call l []) as [[[r l'] fr]| |];
      try reflexivity.
    now rewrite <- app_assoc.
Qed.

Lemma list_call_nil : list_call call [] = Finished (None, []).
Proof. reflexivity. Qed.

Lemma list_call_answer (c c' : Elem) (s : string) (rest : list Elem) :
  call c = Finished (Some s, c') ->
  list_call call (c :: rest) = Finished (Some s, c' :: rest).
Proof.
  intros H. unfold list_call. cbn. now rewrite H.
Qed.

Lemma list_call_null (c c' : Elem) (rest : list Elem) :
  call c = Finished (None, c') ->
  list_call call (c :: rest) = list_call call rest.
Proof.
  intros H. unfold list_call. cbn. rewrite H.
  rewrite completer_list_loop_freed.
  destruct (completer_list_loop Elem call rest []) as [[[r l'] fr]| |];
    reflexivity.
Qed.

End CompleterListFacts.

(** What a completer offers depends only on what its next call returns. *)
Lemma elem_yields_same_call {Elem : Type}
    (call : Elem -> Exec (option string * Elem)) (c1 c2 : Elem) (ss : list string) :
  call c1 = call c2 -> elem_yields call c2 ss -> elem_yields call c1 ss.
Proof.
  intros Heq H. destruct H as [c c' H|c c' s ss H Hrest].
  - apply (elem_yields_null call c1 c'). now rewrite Heq.
  - apply (elem_yields_more call c1 c' s ss); [now rewrite Heq | assumption].
Qed.

Lemma list_yields_cons {Elem : Type}
    (call : Elem -> Exec (option string * Elem))
    (c : Elem) (rest : list Elem) (cs rs : list string) :
  elem_yields call c cs -> list_yields call rest rs ->
  list_yields call (c :: rest) (cs ++ rs).
Proof.
  intros Hc Hrest. induction Hc as [c c' H|c c' s ss H Hc IH].
  - apply (elem_yields_same_call (list_call call) (c :: rest) rest);
      [now apply (list_call_null Elem call c c') | exact Hrest].
  - apply (elem_yields_more (list_call call) (c :: rest) (c' :: rest) s);
      [now apply list_call_answer | exact IH].
Qed.

(** A list of one completer offers what the completer offers. *)
Lemma list_yields_single {Elem : Type}
    (call : Elem -> Exec (option string * Elem)) (c : Elem) (ss : list string) :
  elem_yields call c ss -> list_yields call [c] ss.
Proof.
  intros H. rewrite <- (app_nil_r ss). apply list_yields_cons; [exact H|].
  apply (elem_yields_null (list_call call) [] []). apply list_call_nil.
Qed.

(** X9. A list of completers offers what its completers offer, one completer
    after the other in list order. *)
Theorem completer_list_yields_concat {Elem : Type}
    (call : Elem -> Exec (option string * Elem))
    (l : list Elem) (offers : list (list string)) :
  Forall2 (elem_yields call) l offers ->
  list_yields call l (List.concat offers).
Proof.
  induction 1 as [|c cs l offers Hc Hl IH]; cbn [List.concat].
  - apply (elem_yields_null (list_call call) [] []). apply list_call_nil.
  - now apply list_yields_cons.
Qed.

(** X10. One call of the list function, when it is defined: with a [NULL]
    result every completer was asked once, answered [NULL] and was freed, and
    the list is left empty; with a completion, the completers before the one
    that answered were asked once, answered [NULL] and were freed, and the
    list is left starting at the one that answered, the later ones
    untouched. *)
Theorem completer_list_next_spec {Elem : Type}
    (call : Elem -> Exec (option string * Elem))
    (l l' freed : list Elem) (result : option string) :
  MR_trace_completer_list_next Elem call (Some l)
    = Finished (result, Some l', freed) ->
  exists exhausted,
    Forall2 (fun c c' => call c = Finished (None, c')) exhausted freed
    /\ match result with
       | None => l = exhausted /\ l' = []
       | Some s =>
           exists c c' rest,
             l = exhausted ++ c :: rest /\ l' = c' :: rest
             /\ call c = Finished (Some s, c')
       end.
Proof.
  unfold MR_trace_completer_list_next.
  destruct (completer_list_loop Elem call l []) as [[[r l0] fr]| |] eqn:Hloop;
    try discriminate.
  intros [= -> -> ->]. revert l' freed Hloop.
  induction l as [|c l IH]; intros l' freed Hloop; cbn [completer_list_loop] in Hloop.
  - injection Hloop as <- <- <-. exists []. split; [constructor|]. now split.
  - destruct (call c) as [[[s|] c']| |] eqn:Hc; try discriminate.
    + injection Hloop as <- <- <-. exists []. split; [constructor|].
      exists c, c', l. repeat split. exact Hc.
    + rewrite completer_list_loop_freed in Hloop.
      destruct (completer_list_loop Elem call l []) as [[[r0 l0] fr0]| |] eqn:Hl;
        try discriminate.
      injection Hloop as <- <- <-.
      destruct (IH l0 fr0 eq_refl) as (ex & Hex & Hres).
      exists (c :: ex). split; [cbn; constructor; assumption|].
      destruct r0 as [s|].
      * destruct Hres as (c1 & c1' & rest & -> & -> & Hc1).
        exists c1, c1', rest. repeat split. exact Hc1.
      * destruct Hres as [-> ->]. now split.
Qed.

(** ** The string-array completer *)

Section StringArray.

Variable word : string.
Variable word_len : nat.
Variable strings : list string.
Hypothesis strings_fit : Z.of_nat (List.length strings) < INT_MAX.

Lemma string_array_offset_wrap (k : nat) :
  (k <= List.length strings)%nat ->
  int_wrap (Z.of_nat k + 1) = Z.of_nat (S k).
Proof.
  intros Hk. rewrite int_wrap_id; [lia|].
  unfold int_range, INT_MIN, INT_MAX in *. lia.
Qed.

Lemma string_array_next_at (k : nat) :
  (k <= List.length strings)%nat ->
  MR_trace_string_array_completer_next word word_len (string_array_at strings k) =
    let '(result, offset') :=
      string_array_scan word word_len (skipn k strings) (Z.of_nat k) in
    Finished (result, {| MR_string_array := strings;
                         MR_string_array_current_offset := offset' |}).
Proof.
  intros Hk. unfold MR_trace_string_array_completer_next, string_array_at.
  cbn [MR_string_array MR_string_array_current_offset].
  rewrite Nat2Z.id.
  destruct (Z.leb_spec 0 (Z.of_nat k)); [|lia].
  destruct (Z.leb_spec (Z.of_nat k) (Z.of_nat (List.length strings))); [|lia].
  reflexivity.
Qed.

(** From offset [k] on, the completer offers the later array elements that
    match, in array order. *)
Lemma string_array_yields_from (rest pre : list string) :
  strings = pre ++ rest ->
  elem_yields (MR_trace_string_array_completer_next word word_len)
    (string_array_at strings (List.length pre))
    (filter (fun s => MR_strneq s word word_len) rest).
Proof.
  revert pre. induction rest as [|s rest IH]; intros pre Hs.
  - apply (elem_yields_null _ _ (string_array_at strings (S (List.length pre)))).
    rewrite string_array_next_at by (subst; rewrite length_app; lia).
    replace (skipn (List.length pre) strings) with (@nil string)
      by (subst; rewrite skipn_app, skipn_all, Nat.sub_diag; reflexivity).
    cbn [string_array_scan].
    rewrite string_array_offset_wrap by (subst; rewrite length_app; lia).
    reflexivity.
  - assert (Hk : (List.length pre <= List.length strings)%nat)
      by (subst; rewrite length_app; lia).
    assert (Hk' : (S (List.length pre) <= List.length strings)%nat)
      by (subst; rewrite length_app; cbn; lia).
    assert (Hskip : skipn (List.length pre) strings = s :: rest)
      by (subst; rewrite skipn_app, skipn_all, Nat.sub_diag; reflexivity).
    assert (Hskip' : skipn (S (List.length pre)) strings = rest).
    { replace (S (List.length pre)) with (List.length (pre ++ [s]))
        by (rewrite length_app; cbn; lia).
      subst. replace (pre ++ s :: rest) with ((pre ++ [s]) ++ rest)
        by (now rewrite <- app_assoc).
      now rewrite skipn_app, skipn_all, Nat.sub_diag. }
    specialize (IH (pre ++ [s])).
    replace (List.length (pre ++ [s])) with (S (List.length pre)) in IH
      by (rewrite length_app; cbn; lia).
    specialize (IH ltac:(subst; now rewrite <- app_assoc)).
    cbn [filter]. unfold MR_strneq at 1.
    destruct (strncmp s word word_len =? 0) eqn:Hm.
    + apply (elem_yields_more _ _ (string_array_at strings (S (List.length pre))));
        [|exact IH].
      rewrite string_array_next_at by assumption. rewrite Hskip.
      cbn [string_array_scan]. rewrite Hm.
      rewrite string_array_offset_wrap by assumption. reflexivity.
    + apply (elem_yields_same_call _ _
               (string_array_at strings (S (List.length pre)))); [|exact IH].
      rewrite !string_array_next_at by assumption. rewrite Hskip, Hskip'.
      cbn [string_array_scan]. rewrite Hm.
      rewrite string_array_offset_wrap by assumption. reflexivity.
Qed.

End StringArray.

(** X11. The completer made by [MR_trace_string_array_completer] offers exactly
    the array elements whose first [word_len] characters are those of the
    word, in array order and each once, and then answers [NULL]; it never
    reads past the array's terminator.  When [word_len] is the length of the
    word, these are the elements that have the word as a prefix. *)
Theorem string_array_completer_yields
    (word : string) (word_len : nat) (strings : list string) :
  Z.of_nat (List.length strings) < INT_MAX ->
  list_yields (MR_trace_string_array_completer_next word word_len)
    (MR_trace_string_array_completer strings)
    (filter (fun s => MR_strneq s word word_len) strings)
  /\ (c_string word -> word_len = String.length word ->
      list_yields (MR_trace_string_array_completer_next word word_len)
        (MR_trace_string_array_completer strings)
        (filter (String.prefix word) strings)).
Proof.
  intros Hfit.
  assert (H : list_yields (MR_trace_string_array_completer_next word word_len)
                (MR_trace_string_array_completer strings)
                (filter (fun s => MR_strneq s word word_len) strings)).
  { apply list_yields_single.
    apply (string_array_yields_from word word_len strings Hfit strings []).
    reflexivity. }
  split; [exact H|].
  intros Hc ->. erewrite filter_ext; [exact H|].
  intros s. cbv beta. symmetry. now apply strneq_prefix.
Qed.

(** ** The sorted-array completer *)

Lemma matching_run_all (word : string) (get_slot_name : Z -> string)
    (offset : Z) (slots : nat) :
  matching_run word 0 get_slot_name offset slots
  = map (fun i => get_slot_name (offset + Z.of_nat i)) (seq 0 slots).
Proof.
  revert offset. induction slots as [|n IH]; intros offset; [reflexivity|].
  cbn [matching_run seq map]. unfold MR_strneq.
  change (strncmp (get_slot_name offset) word 0) with 0. cbn [Z.eqb].
  rewrite Z.add_0_r. f_equal. rewrite IH, <- seq_shift, map_map.
  apply map_ext. intros i. f_equal. lia.
Qed.

(** From its current offset on, the sorted-array completer offers the slot
    names one by one for as long as they match the word, and answers [NULL]
    at the first slot that does not match or at the end of the array. *)
Lemma sorted_array_next_run
    (word : string) (word_length : nat)
    (get_slot_name : Z -> string) (offset size : Z) :
  0 <= offset -> size <= INT_MAX ->
  elem_yields (MR_trace_sorted_array_completer_next word word_length)
    {| MR_sorted_array_get_slot_name := get_slot_name;
       MR_sorted_array_current_offset := offset;
       MR_sorted_array_size := size |}
    (matching_run word word_length get_slot_name offset (Z.to_nat (size - offset))).
Proof.
  intros Hoff Hsize.
  remember (Z.to_nat (size - offset)) as n eqn:Hn.
  revert offset Hoff Hn. induction n as [|n IH]; intros offset Hoff Hn.
  - eapply elem_yields_null.
    unfold MR_trace_sorted_array_completer_next.
    cbn [MR_sorted_array_current_offset MR_sorted_array_size].
    destruct (Z.ltb_spec offset size); [lia|reflexivity].
  - cbn [matching_run].
    destruct (MR_strneq (get_slot_name offset) word word_length) eqn:Hm.
    + eapply elem_yields_more; [|apply (IH (offset + 1)); lia].
      unfold MR_trace_sorted_array_completer_next.
      cbn [MR_sorted_array_current_offset MR_sorted_array_size
           MR_sorted_array_get_slot_name].
      destruct (Z.ltb_spec offset size); [|lia]. rewrite Hm.
      rewrite int_wrap_id
        by (unfold int_range, INT_MIN, INT_MAX in *; lia).
      reflexivity.
    + eapply elem_yields_null.
      unfold MR_trace_sorted_array_completer_next.
      cbn [MR_sorted_array_current_offset MR_sorted_array_size
           MR_sorted_array_get_slot_name].
      destruct (Z.ltb_spec offset size); [|lia]. rewrite Hm. reflexivity.
Qed.

(** X12. The completer made by [MR_trace_sorted_array_completer] for a word that
    is not empty starts at the slot that [MR_find_first_match] found and
    offers the names of that slot and the following ones for as long as they
    match the word, stopping at the first that does not match or at the end
    of the array; when nothing was found it offers nothing. *)
Theorem sorted_array_completer_yields
    (MR_find_first_match : Z -> (Z -> Z) -> Z * bool)
    (word : string) (word_length : nat) (array_size : Z)
    (get_slot_name : Z -> string) :
  word_length <> 0%nat ->
  array_size <= INT_MAX ->
  0 <= fst (MR_find_first_match array_size
              (fun slot => strncmp (get_slot_name slot) word word_length)) ->
  let '(slot, found) :=
    MR_find_first_match array_size
      (fun slot => strncmp (get_slot_name slot) word word_length) in
  list_yields (MR_trace_sorted_array_completer_next word word_length)
    (MR_trace_sorted_array_completer MR_find_first_match word word_length
       array_size get_slot_name)
    (if found
     then matching_run word word_length get_slot_name slot
            (Z.to_nat (array_size - slot))
     else []).
Proof.
  intros Hlen Hsize Hslot. unfold MR_trace_sorted_array_completer.
  destruct (Nat.eqb_spec word_length 0) as [H0|_]; [contradiction|].
  destruct (MR_find_first_match array_size _) as [slot [|]]; cbn [fst] in Hslot.
  - apply list_yields_single. now apply sorted_array_next_run.
  - apply (elem_yields_null _ [] []). reflexivity.
Qed.

(** X13. Completing the empty word on a sorted array offers the name of every
    slot, from slot 0 to the last, whatever [MR_find_first_match] would have
    said: the macro is not consulted. *)
Theorem sorted_array_completer_empty_word
    (MR_find_first_match : Z -> (Z -> Z) -> Z * bool)
    (word : string) (array_size : Z) (get_slot_name : Z -> string) :
  0 <= array_size <= INT_MAX ->
  list_yields (MR_trace_sorted_array_completer_next word 0)
    (MR_trace_sorted_array_completer MR_find_first_match word 0 array_size
       get_slot_name)
    (map (fun i => get_slot_name (Z.of_nat i)) (seq 0 (Z.to_nat array_size))).
Proof.
  intros Hsize. unfold MR_trace_sorted_array_completer. cbn [Nat.eqb].
  destruct (Z.eqb_spec array_size 0) as [->|Hne]; cbn [negb].
  - apply (elem_yields_null _ [] []). reflexivity.
  - apply list_yields_single.
    pose proof (sorted_array_next_run word 0 get_slot_name 0
                  array_size ltac:(lia) ltac:(lia)) as H.
    rewrite Z.sub_0_r, matching_run_all in H. exact H.
Qed.

(** ** Mapping and filtering the output of a list of completers *)

Section MapFilter.

Variable Elem : Type.
Variable call : Elem -> Exec (option string * Elem).

Lemma list_next_of_list_call (l l' : list Elem) (result : option string) :
  list_call call l = Finished (result, l') ->
  exists freed,
    MR_trace_completer_list_next Elem call (Some l)
      = Finished (result, Some l', freed).
Proof.
  unfold list_call, MR_trace_completer_list_next.
  destruct (completer_list_loop Elem call l []) as [[[r l0] fr]| |];
    try discriminate.
  intros [= -> ->]. now exists fr.
Qed.

Lemma map_completer_next_yields {D : Type}
    (map : string -> D -> option string * D)
    (inner : list Elem) (ss : list string) :
  list_yields call inner ss ->
  forall d,
    elem_yields (MR_trace_map_completer_next Elem call)
      {| MR_map_func := map; MR_map_data := d; MR_map_list := inner |}
      (map_answers map d ss).
Proof.
  unfold list_yields. induction 1 as [l l' H|l l' s ss H Hrest IH]; intros d.
  - destruct (list_next_of_list_call _ _ _ H) as [freed Hnext].
    eapply elem_yields_null. unfold MR_trace_map_completer_next.
    cbn [MR_map_list]. rewrite Hnext. reflexivity.
  - destruct (list_next_of_list_call _ _ _ H) as [freed Hnext].
    cbn [map_answers]. destruct (map s d) as [[r|] d'] eqn:Hmap.
    + eapply elem_yields_more; [|apply (IH d')].
      unfold MR_trace_map_completer_next.
      cbn [MR_map_list MR_map_func MR_map_data]. rewrite Hnext, Hmap. reflexivity.
    + eapply elem_yields_null. unfold MR_trace_map_completer_next.
      cbn [MR_map_list MR_map_func MR_map_data]. rewrite Hnext, Hmap. reflexivity.
Qed.

(** With more fuel than the inner list has completions left, one call of the
    filter completer finishes, and its answer does not depend on the fuel. *)
Lemma filter_completer_next_fuel {D : Type}
    (filter : string -> D -> bool * D)
    (inner : list Elem) (ss : list string) :
  list_yields call inner ss ->
  forall d fuel1 fuel2,
    (List.length ss < fuel1)%nat -> (List.length ss < fuel2)%nat ->
    MR_trace_filter_completer_next Elem call fuel1
      {| MR_filter_func := filter; MR_filter_data := d; MR_filter_list := inner |}
    = MR_trace_filter_completer_next Elem call fuel2
        {| MR_filter_func := filter; MR_filter_data := d; MR_filter_list := inner |}.
Proof.
  unfold list_yields. induction 1 as [l l' H|l l' s ss H Hrest IH];
    intros d fuel1 fuel2 H1 H2;
    destruct (list_next_of_list_call _ _ _ H) as [freed Hnext];
    (destruct fuel1 as [|fuel1]; [cbn in H1; lia|]);
    (destruct fuel2 as [|fuel2]; [cbn in H2; lia|]);
    cbn [MR_trace_filter_completer_next MR_filter_list MR_filter_func
         MR_filter_data]; rewrite Hnext.
  - reflexivity.
  - destruct (filter s d) as [[|] d']; [reflexivity|].
    apply IH; cbn [List.length] in *; lia.
Qed.

Lemma filter_completer_next_yields {D : Type}
    (filter : string -> D -> bool * D)
    (inner : list Elem) (ss : list string) (fuel : nat) :
  list_yields call inner ss ->
  (List.length ss < fuel)%nat ->
  forall d,
    elem_yields (MR_trace_filter_completer_next Elem call fuel)
      {| MR_filter_func := filter; MR_filter_data := d; MR_filter_list := inner |}
      (filter_answers filter d ss).
Proof.
  unfold list_yields. intros Hy. revert fuel.
  induction Hy as [l l' H|l l' s ss H Hrest IH]; intros fuel Hfuel d;
    destruct (list_next_of_list_call _ _ _ H) as [freed Hnext];
    (destruct fuel as [|fuel']; [cbn in Hfuel; lia|]).
  - eapply elem_yields_null.
    cbn [MR_trace_filter_completer_next MR_filter_list MR_filter_func
         MR_filter_data]. rewrite Hnext. reflexivity.
  - cbn [List.length] in Hfuel. cbn [filter_answers].
    destruct (filter s d) as [[|] d'] eqn:Hf.
    + eapply elem_yields_more; [|apply (IH (S fuel')); lia].
      cbn [MR_trace_filter_completer_next MR_filter_list MR_filter_func
           MR_filter_data]. rewrite Hnext, Hf. reflexivity.
    + eapply elem_yields_same_call; [|apply (IH (S fuel') ltac:(lia) d')].
      transitivity
        (MR_trace_filter_completer_next Elem call fuel'
           {| MR_filter_func := filter; MR_filter_data := d';
              MR_filter_list := l' |}).
      * cbn [MR_trace_filter_completer_next MR_filter_list MR_filter_func
             MR_filter_data]. rewrite Hnext, Hf. reflexivity.
      * apply (filter_completer_next_fuel filter l' ss Hrest); lia.
Qed.

End MapFilter.

(** X14. A map completer offers the images under the mapping function of what its
    list of completers offers, in the same order, and ends early if the
    function returns [NULL].  Built with [MR_prepend_string] and some digits,
    as for a command typed after a number, it offers every completion of the
    list with the digits put back in front. *)
Theorem map_completer_yields {Elem D : Type}
    (call : Elem -> Exec (option string * Elem))
    (map : string -> D -> option string * D) (map_data : D)
    (inner : list Elem) (ss : list string) (digits : string) :
  list_yields call inner ss ->
  list_yields (MR_trace_map_completer_next Elem call)
    (MR_trace_map_completer Elem map map_data inner)
    (map_answers map map_data ss)
  /\ list_yields (MR_trace_map_completer_next Elem call)
       (MR_trace_map_completer Elem MR_prepend_string digits inner)
       (List.map (fun s => (digits ++ s)%string) ss).
Proof.
  intros Hy.
  assert (Hgen : forall (D' : Type) (m : string -> D' -> option string * D') d,
    list_yields (MR_trace_map_completer_next Elem call)
      (MR_trace_map_completer Elem m d inner) (map_answers m d ss)).
  { intros D' m d. apply list_yields_single.
    now apply map_completer_next_yields. }
  split; [apply Hgen|].
  replace (List.map (fun s => (digits ++ s)%string) ss)
    with (map_answers MR_prepend_string digits ss); [apply Hgen|].
  clear. induction ss as [|s ss IH]; [reflexivity|].
  cbn [map_answers MR_prepend_string List.map]. now rewrite IH.
Qed.

(** X15. A filter completer, given more loop iterations than its list of
    completers has completions left, offers exactly the completions of the
    list that the filter function accepts, in the same order. *)
Theorem filter_completer_yields {Elem D : Type}
    (call : Elem -> Exec (option string * Elem))
    (filter : string -> D -> bool * D) (filter_data : D)
    (inner : list Elem) (ss : list string) (fuel : nat) :
  list_yields call inner ss ->
  (List.length ss < fuel)%nat ->
  list_yields (MR_trace_filter_completer_next Elem call fuel)
    (MR_trace_filter_completer Elem filter filter_data inner)
    (filter_answers filter filter_data ss).
Proof.
  intros Hy Hfuel. apply list_yields_single.
  now apply filter_completer_next_yields.
Qed.

(** * The interface to the term browser *)

Section BrowserFacts.

Variable typeinfo_type_value : MR_Word.
Variable browser_state_type_value : MR_Word.
Variable init_state_value : MR_Word.
Variable MR_make_permanent : MR_Word -> MR_Word -> MR_Word.

(** Once the browser is initialised, a request leaves it so and makes none
    of the initialising calls. *)
Lemma serve_initialised (r : BrowserRequest) (b : Browser) :
  ensure_init_done b = true ->
  let out := serve typeinfo_type_value browser_state_type_value
               init_state_value MR_make_permanent r b in
  ensure_init_done (fst out) = true
  /\ Forall (fun c => is_init_call c = false) (snd out).
Proof.
  intros Hd. destruct r as [ti v ns|ti v]; cbn [serve];
    unfold MR_trace_browse, MR_trace_print, MR_trace_browse_ensure_init;
    rewrite Hd; cbn; repeat split; try assumption; repeat constructor.
Qed.

Lemma serve_all_initialised (rs : list BrowserRequest) (b : Browser) :
  ensure_init_done b = true ->
  let out := serve_all typeinfo_type_value browser_state_type_value
               init_state_value MR_make_permanent rs b in
  ensure_init_done (fst out) = true
  /\ Forall (fun c => is_init_call c = false) (snd out).
Proof.
  revert b. induction rs as [|r rs IH]; intros b Hd; cbn [serve_all].
  - split; [exact Hd | constructor].
  - pose proof (serve_initialised r b Hd) as H. cbv zeta in H.
    destruct (serve _ _ _ _ r b) as [b1 calls1]. cbn [fst snd] in H.
    destruct H as (Hd1 & Hc1). specialize (IH b1 Hd1). cbv zeta in IH.
    destruct (serve_all _ _ _ _ rs b1) as [b2 calls2]. cbn [fst snd] in *.
    split; [apply IH|]. apply Forall_app. split; [exact Hc1 | apply IH].
Qed.

(** The first request initialises the browser, before anything else. *)
Lemma serve_first (r : BrowserRequest) :
  let out := serve typeinfo_type_value browser_state_type_value
               init_state_value MR_make_permanent r browser_at_start in
  ensure_init_done (fst out) = true
  /\ exists rest,
       snd out = [Call_ML_get_type_info_for_type_info;
                  Call_ML_BROWSE_browser_state_type;
                  Call_ML_BROWSE_init_state] ++ rest
       /\ Forall (fun c => is_init_call c = false) rest.
Proof.
  destruct r as [ti v ns|ti v]; cbn; (split; [reflexivity|]);
    eexists; (split; [reflexivity|]); repeat constructor.
Qed.

End BrowserFacts.

(** X16. Whatever requests to browse and to print the debugger makes, and however
    many, the browser is initialised exactly once: the three initialising
    procedures are called, in order, before every other call of the first
    request, and never again. *)
Theorem browser_initialised_once
    (typeinfo_type_value browser_state_type_value init_state_value : MR_Word)
    (MR_make_permanent : MR_Word -> MR_Word -> MR_Word)
    (r : BrowserRequest) (rs : list BrowserRequest) :
  let out := serve_all typeinfo_type_value browser_state_type_value
               init_state_value MR_make_permanent (r :: rs) browser_at_start in
  ensure_init_done (fst out) = true
  /\ exists rest,
       snd out = [Call_ML_get_type_info_for_type_info;
                  Call_ML_BROWSE_browser_state_type;
                  Call_ML_BROWSE_init_state] ++ rest
       /\ Forall (fun c => is_init_call c = false) rest.
Proof.
  cbn [serve_all].
  pose proof (serve_first typeinfo_type_value browser_state_type_value
                init_state_value MR_make_permanent r) as H. cbv zeta in H.
  destruct (serve _ _ _ _ r browser_at_start) as [b1 calls1].
  cbn [fst snd] in H. destruct H as (Hd1 & rest1 & -> & Hrest1).
  pose proof (serve_all_initialised typeinfo_type_value browser_state_type_value
                init_state_value MR_make_permanent rs b1 Hd1) as H.
  cbv zeta in H.
  destruct (serve_all _ _ _ _ rs b1) as [b2 calls2]. cbn [fst snd] in *.
  destruct H as (Hd2 & Hc2). split; [exact Hd2|].
  exists (rest1 ++ calls2). split; [now rewrite <- app_assoc|].
  apply Forall_app. now split.
Qed.

(** * The further properties on sample inputs *)

(** A sync term for two branches joined three times: the third join fails
    its assertion, and one join at most resumed anybody. *)
Lemma sync_term_resumes_at_most_once_sample :
  let r := run_joins zone_min_sample grade_default
             (fst (MR_init_sync_term grade_default 2))
             [join_and_terminate engine_sample;
              join_and_continue engine_sample zeroed_context 4200;
              join_and_terminate engine_sample] in
  Z.of_nat (List.length (fst r)) <= 2
  /\ (total_resumptions (fst r) <= 1)%nat
  /\ is_failure (snd r) = true.
Proof.
  assert (HN : 1 <= 2 <= INT_MAX) by (unfold INT_MAX; lia).
  pose proof (sync_term_resumes_at_most_once zone_min_sample grade_default 2
                [join_and_terminate engine_sample;
                 join_and_continue engine_sample zeroed_context 4200;
                 join_and_terminate engine_sample] HN) as H.
  cbv zeta in H. destruct H as (H1 & H2 & H3).
  cbv zeta. split; [exact H1 | split; [exact H2 | apply H3; cbn; lia]].
Defined.

Lemma c_string_b : c_string "b".
Proof.
  unfold c_string. cbn. intros [H|[]]. discriminate H.
Defined.

Lemma commands_sample_fit : Z.of_nat (List.length commands_sample) < INT_MAX.
Proof.
  unfold INT_MAX. cbn. lia.
Defined.

(** Completing "b" on the sample commands offers "break" and "browse". *)
Lemma string_array_completer_yields_sample :
  list_yields (MR_trace_string_array_completer_next "b" 1)
    (MR_trace_string_array_completer commands_sample)
    ["break"; "browse"]%string.
Proof.
  destruct (string_array_completer_yields "b" 1 commands_sample
              commands_sample_fit) as [_ H].
  exact (H c_string_b eq_refl).
Defined.

(** Completing "br" on the sample slots, found by linear search. *)
Lemma sorted_array_completer_yields_sample :
  list_yields (MR_trace_sorted_array_completer_next "br" 2)
    (MR_trace_sorted_array_completer find_first_match_sample "br" 2 3
       slot_names_sample)
    ["break"; "browse"]%string.
Proof.
  assert (Hlen : 2%nat <> 0%nat) by discriminate.
  assert (Hsize : 3 <= INT_MAX) by (unfold INT_MAX; lia).
  assert (Hslot : 0 <= fst (find_first_match_sample 3
                    (fun slot => strncmp (slot_names_sample slot) "br" 2)))
    by (vm_compute; discriminate).
  exact (sorted_array_completer_yields find_first_match_sample "br" 2 3
           slot_names_sample Hlen Hsize Hslot).
Defined.

(** Completing the empty word on the sample slots offers them all. *)
Lemma sorted_array_completer_empty_word_sample :
  list_yields (MR_trace_sorted_array_completer_next "" 0)
    (MR_trace_sorted_array_completer find_first_match_sample "" 0 3
       slot_names_sample)
    ["break"; "browse"; "print"]%string.
Proof.
  assert (Hsize : 0 <= 3 <= INT_MAX) by (unfold INT_MAX; lia).
  exact (sorted_array_completer_empty_word find_first_match_sample "" 3
           slot_names_sample Hsize).
Defined.

Lemma commands_sample_offers :
  elem_yields (MR_trace_string_array_completer_next "b" 1)
    (string_array_at commands_sample 0) ["break"; "browse"]%string.
Proof.
  exact (string_array_yields_from "b" 1 commands_sample commands_sample_fit
           commands_sample [] eq_refl).
Defined.

Lemma other_array_offers :
  elem_yields (MR_trace_string_array_completer_next "b" 1)
    (string_array_at ["alias"; "bar"]%string 0) ["bar"]%string.
Proof.
  assert (Hfit : Z.of_nat (List.length ["alias"; "bar"]%string) < INT_MAX)
    by (unfold INT_MAX; cbn; lia).
  exact (string_array_yields_from "b" 1 ["alias"; "bar"]%string Hfit
           ["alias"; "bar"]%string [] eq_refl).
Defined.

(** Two string arrays in a list: the completions of the first, then those of
    the second. *)
Lemma completer_list_yields_concat_sample :
  list_yields (MR_trace_string_array_completer_next "b" 1)
    [string_array_at commands_sample 0; string_array_at ["alias"; "bar"]%string 0]
    ["break"; "browse"; "bar"]%string.
Proof.
  apply (completer_list_yields_concat
           (MR_trace_string_array_completer_next "b" 1)
           [string_array_at commands_sample 0;
            string_array_at ["alias"; "bar"]%string 0]
           [["break"; "browse"]; ["bar"]]%string).
  constructor; [exact commands_sample_offers|].
  constructor; [exact other_array_offers | constructor].
Defined.

(** A list whose first array has nothing for "b": the first completer is
    freed and the second answers. *)
Lemma completer_list_next_spec_sample :
  exists exhausted,
    Forall2 (fun c c' => MR_trace_string_array_completer_next "b" 1 c
                         = Finished (None, c'))
      exhausted [string_array_at ["print"]%string 2]
    /\ exists c c' rest,
         [string_array_at ["print"]%string 0; string_array_at commands_sample 0]
           = exhausted ++ c :: rest
         /\ [string_array_at commands_sample 1] = c' :: rest
         /\ MR_trace_string_array_completer_next "b" 1 c
            = Finished (Some "break"%string, c').
Proof.
  exact (completer_list_next_spec (MR_trace_string_array_completer_next "b" 1)
           [string_array_at ["print"]%string 0; string_array_at commands_sample 0]
           [string_array_at commands_sample 1]
           [string_array_at ["print"]%string 2]
           (Some "break"%string) eq_refl).
Defined.

Lemma commands_sample_list_offers :
  list_yields (MR_trace_string_array_completer_next "b" 1)
    (MR_trace_string_array_completer commands_sample)
    ["break"; "browse"]%string.
Proof.
  apply list_yields_single. exact commands_sample_offers.
Defined.

(** A command typed after the number 10: the completions keep the number. *)
Lemma map_completer_yields_sample :
  list_yields
    (MR_trace_map_completer_next _ (MR_trace_string_array_completer_next "b" 1))
    (MR_trace_map_completer _ MR_prepend_string "10"%string
       (MR_trace_string_array_completer commands_sample))
    ["10break"; "10browse"]%string.
Proof.
  destruct (map_completer_yields (MR_trace_string_array_completer_next "b" 1)
              MR_prepend_string "10"%string
              (MR_trace_string_array_completer commands_sample)
              ["break"; "browse"]%string "10"%string
              commands_sample_list_offers) as [_ H].
  exact H.
Defined.

(** Filtering "break" out of the completions of "b". *)
Lemma filter_completer_yields_sample :
  list_yields
    (MR_trace_filter_completer_next _
       (MR_trace_string_array_completer_next "b" 1) 3)
    (MR_trace_filter_completer _ reject_sample "break"%string
       (MR_trace_string_array_completer commands_sample))
    ["browse"]%string.
Proof.
  assert (Hfuel : (List.length ["break"; "browse"]%string < 3)%nat) by (cbn; lia).
  exact (filter_completer_yields (MR_trace_string_array_completer_next "b" 1)
           reject_sample "break"%string
           (MR_trace_string_array_completer commands_sample)
           ["break"; "browse"]%string 3 commands_sample_list_offers Hfuel).
Defined.
